(** * Job board core: snippet sanitizer, job ordering, statistics, filters

    Shallow embedding of [src/lib/jobs.ts] and of the filtering code of
    [src/components/JobExplorer.tsx].

    JavaScript strings are sequences of UTF-16 code units; [length],
    [slice], [split], [includes] and the (non-unicode) regular expressions of
    the source all work on code units, so a string is a [list N]. *)

From Stdlib Require Import Ascii String.
From Stdlib Require Import List NArith ZArith Bool Lia Arith.
From Stdlib Require Import Sorted Permutation.
Import ListNotations.

Local Open Scope list_scope.

(* ================================================================= *)
(** ** Strings as lists of UTF-16 code units *)

Definition char := N.
Definition jsstring := list char.

(** An ASCII literal of the source as a sequence of code units. *)
Definition lit (s : string) : jsstring :=
  List.map N_of_ascii (list_ascii_of_string s).

Definition c_space : char := 32%N.
Definition c_amp : char := 38%N.      (* & *)
Definition c_slash : char := 47%N.    (* / *)
Definition c_lt : char := 60%N.       (* < *)
Definition c_gt : char := 62%N.       (* > *)
Definition c_bullet : char := 8226%N.   (* U+2022 *)
Definition c_ellipsis : char := 8230%N. (* U+2026 *)

Definition char_eqb (a b : char) : bool := N.eqb a b.

Fixpoint str_eqb (a b : jsstring) : bool :=
  match a, b with
  | [], [] => true
  | x :: a', y :: b' => char_eqb x y && str_eqb a' b'
  | _, _ => false
  end.

(** [WhiteSpace] and [LineTerminator] of ECMAScript: the characters matched by
    the regular expression class [\s] and removed by [String.prototype.trim]. *)
Definition is_ws (c : char) : bool :=
  ((9 <=? c) && (c <=? 13) || (c =? 32) || (c =? 160) || (c =? 5760)
   || (8192 <=? c) && (c <=? 8202) || (c =? 8232) || (c =? 8233)
   || (c =? 8239) || (c =? 8287) || (c =? 12288) || (c =? 65279))%N.

Fixpoint dropWhile {A} (p : A -> bool) (l : list A) : list A :=
  match l with
  | [] => []
  | x :: t => if p x then dropWhile p t else l
  end.

Definition trimStart (s : jsstring) : jsstring := dropWhile is_ws s.
Definition trimEnd (s : jsstring) : jsstring := rev (dropWhile is_ws (rev s)).
(** [String.prototype.trim] *)
Definition trim (s : jsstring) : jsstring := trimEnd (trimStart s).

(** [s.startsWith(p)] on code units. *)
Fixpoint is_prefix (p s : jsstring) : bool :=
  match p, s with
  | [], _ => true
  | x :: p', y :: s' => char_eqb x y && is_prefix p' s'
  | _ :: _, [] => false
  end.

(** [h.includes(n)]: [n] occurs in [h] at some index. *)
Fixpoint includes (h n : jsstring) : bool :=
  is_prefix n h ||
  match h with
  | [] => false
  | _ :: t => includes t n
  end.

(* ================================================================= *)
(** ** Regular expressions of the source

    The patterns used by [cleanSnippet] are sequences of one-character atoms
    with the greedy quantifiers [?], [*] and [+].  [re_match] is the
    backtracking matcher of ECMAScript restricted to such patterns: it
    returns the length of the match found at the start of the string, trying
    the longer alternative of a quantifier first. *)

Inductive atom :=
| Cls (p : char -> bool)    (* one character of the class *)
| Opt (p : char -> bool)    (* x? *)
| Star (p : char -> bool)   (* x* *)
| Plus (p : char -> bool).  (* x+ *)

Definition regex := list atom.

Fixpoint re_match (r : regex) : jsstring -> option nat :=
  match r with
  | [] => fun _ => Some 0
  | a :: r' =>
    let star (p : char -> bool) :=
      fix star (s : jsstring) : option nat :=
        match s with
        | c :: t =>
          if p c then
            match star t with
            | Some n => Some (S n)
            | None => re_match r' s
            end
          else re_match r' s
        | [] => re_match r' []
        end in
    match a with
    | Cls p => fun s =>
      match s with
      | c :: t => if p c then option_map S (re_match r' t) else None
      | [] => None
      end
    | Opt p => fun s =>
      match s with
      | c :: t =>
        if p c then
          match re_match r' t with
          | Some n => Some (S n)
          | None => re_match r' s
          end
        else re_match r' s
      | [] => re_match r' []
      end
    | Star p => star p
    | Plus p => fun s =>
      match s with
      | c :: t => if p c then option_map S (star p t) else None
      | [] => None
      end
    end
  end.

(** A literal character, and a literal ASCII letter under the [i] flag.
    Without the [u] flag, [Canonicalize] maps a character through
    [toUpperCase] but never maps a non-ASCII code unit to an ASCII one, so a
    letter of the pattern matches exactly its two ASCII cases. *)
Definition chr (c : char) : atom := Cls (char_eqb c).
Definition is_lower_letter (c : char) : bool := ((97 <=? c) && (c <=? 122))%N.
Definition canon (c : char) : char :=
  if is_lower_letter c then (c - 32)%N else c.
Definition chr_i (c : char) : atom :=
  Cls (fun x => char_eqb (canon x) (canon c) && (x <? 128)%N).

Definition not_gt (c : char) : bool := negb (char_eqb c_gt c).

(** [s.replace(re, rep)] for a global regular expression [re] and a
    replacement without [$] patterns: matches are searched left to right,
    each one is replaced and the search resumes after it ([skip] counts the
    characters of the current match still to be dropped).  An empty match
    inserts [rep] and moves on by one character. *)
Fixpoint replace_go (m : jsstring -> option nat) (rep : jsstring)
                    (skip : nat) (s : jsstring) : jsstring :=
  match s with
  | [] =>
    match skip, m [] with
    | O, Some _ => rep
    | _, _ => []
    end
  | c :: t =>
    match skip with
    | S k => replace_go m rep k t
    | O =>
      match m s with
      | Some (S n) => rep ++ replace_go m rep n t
      | Some O => rep ++ c :: replace_go m rep 0 t
      | None => c :: replace_go m rep 0 t
      end
    end
  end.

Definition replace (r : regex) (rep s : jsstring) : jsstring :=
  replace_go (re_match r) rep 0 s.

(** [s.split(sep)] for a non-empty separator, and [parts.join(v)]. *)
Fixpoint split_go (sep : jsstring) (skip : nat) (s : jsstring) : list jsstring :=
  match s with
  | [] => [[]]
  | c :: t =>
    match skip with
    | S k => split_go sep k t
    | O =>
      if is_prefix sep s then [] :: split_go sep (length sep - 1) t
      else
        match split_go sep 0 t with
        | h :: r => (c :: h) :: r
        | [] => [[c]]
        end
    end
  end.

Definition split (sep s : jsstring) : list jsstring := split_go sep 0 s.

Fixpoint join (v : jsstring) (parts : list jsstring) : jsstring :=
  match parts with
  | [] => []
  | [p] => p
  | p :: rest => p ++ v ++ join v rest
  end.

(* ================================================================= *)
(** ** [cleanSnippet] *)

(** [HTML_ENTITIES], in the insertion order that [Object.entries] follows. *)
Definition HTML_ENTITIES : list (jsstring * jsstring) :=
  [ (lit "&nbsp;", lit " ");
    (lit "&amp;", lit "&");
    (lit "&lt;", lit "<");
    (lit "&gt;", lit ">");
    (lit "&quot;", [34%N]);
    (lit "&#39;", lit "'") ].

(** The [for ... of Object.entries(HTML_ENTITIES)] loop. *)
Definition decode_entities (s : jsstring) : jsstring :=
  fold_left (fun result ev => join (snd ev) (split (fst ev) result))
            HTML_ENTITIES s.

Definition re_br : regex :=      (* /<br\s*\/?>/gi *)
  [chr c_lt; chr_i 98%N; chr_i 114%N; Star is_ws; Opt (char_eqb c_slash); chr c_gt].
Definition re_li : regex :=      (* /<\/?li>/gi *)
  [chr c_lt; Opt (char_eqb c_slash); chr_i 108%N; chr_i 105%N; chr c_gt].
Definition re_strong : regex :=  (* /<\/?strong>/gi *)
  [chr c_lt; Opt (char_eqb c_slash); chr_i 115%N; chr_i 116%N; chr_i 114%N;
   chr_i 111%N; chr_i 110%N; chr_i 103%N; chr c_gt].
Definition re_em : regex :=      (* /<\/?em>/gi *)
  [chr c_lt; Opt (char_eqb c_slash); chr_i 101%N; chr_i 109%N; chr c_gt].
Definition re_p : regex :=       (* /<\/?p>/gi *)
  [chr c_lt; Opt (char_eqb c_slash); chr_i 112%N; chr c_gt].
Definition re_ul : regex :=      (* /<\/?ul>/gi *)
  [chr c_lt; Opt (char_eqb c_slash); chr_i 117%N; chr_i 108%N; chr c_gt].
Definition re_tag : regex :=     (* /<\/?[^>]+>/g *)
  [chr c_lt; Opt (char_eqb c_slash); Plus not_gt; chr c_gt].
Definition re_spaces : regex :=  (* /\s+/g *)
  [Plus is_ws].

(** Lines 46-52: the structural rules, applied to the decoded text. *)
Definition strip_markup (s : jsstring) : jsstring :=
  let result := replace re_br [c_space] s in
  let result := replace re_li [c_space; c_bullet; c_space] result in
  let result := replace re_strong [] result in
  let result := replace re_em [] result in
  let result := replace re_p [c_space] result in
  let result := replace re_ul [c_space] result in
  replace re_tag [c_space] result.

(** Line 53. *)
Definition collapse (s : jsstring) : jsstring :=
  trim (replace re_spaces [c_space] s).

(** Line 55. *)
Definition truncate (result : jsstring) : jsstring :=
  if 220 <? length result
  then trim (firstn 217 result) ++ [c_ellipsis]
  else result.

(** The value of [result] when line 54 is reached. *)
Definition collapsed_text (snippet : jsstring) : jsstring :=
  collapse (strip_markup (decode_entities snippet)).

Definition cleanSnippet (snippet : option jsstring) : option jsstring :=
  match snippet with
  | None => None
  | Some [] => None
  | Some s =>
    let result := collapsed_text s in
    match result with
    | [] => None
    | _ => Some (truncate result)
    end
  end.

(* ================================================================= *)
(** ** Jobs *)

Inductive VisaStatus := Mentioned | NotMentioned.

Definition visa_eqb (a b : VisaStatus) : bool :=
  match a, b with
  | Mentioned, Mentioned | NotMentioned, NotMentioned => true
  | _, _ => false
  end.

Module Raw.
Record RawJob := {
  title : jsstring;
  company : jsstring;
  country : jsstring;
  location : jsstring;
  visa_status : VisaStatus;
  visa_snippet : option jsstring;
  job_type : jsstring;
  reason : jsstring;
  link : jsstring;
  source : jsstring
}.
End Raw.

Record Job := {
  title : jsstring;
  company : jsstring;
  country : jsstring;
  location : jsstring;
  visaStatus : VisaStatus;
  visaSnippet : option jsstring;
  jobType : jsstring;
  reason : jsstring;
  link : jsstring;
  source : jsstring
}.

(** The callback of [rawJobs.map] in [getJobs]. *)
Definition normalize (job : Raw.RawJob) : Job := {|
  title := Raw.title job;
  company := Raw.company job;
  country := Raw.country job;
  location := Raw.location job;
  visaStatus := Raw.visa_status job;
  visaSnippet := cleanSnippet (Raw.visa_snippet job);
  jobType := Raw.job_type job;
  reason := Raw.reason job;
  link := Raw.link job;
  source := Raw.source job
|}.

(** [Array.prototype.sort] with a comparison function.  ECMAScript 2019
    requires the sort to be stable; for a consistent comparison function
    the result of a stable sort is determined, and it is computed here by
    insertion: an element goes before the first element of the sorted rest
    that does not order strictly before it.  For a comparison function that
    is not consistent on the elements of the array the order of the engine
    is implementation-defined and may differ from this one. *)
Section ArraySort.
Context {A : Type} (comparefn : A -> A -> Z).

Fixpoint insert (x : A) (l : list A) : list A :=
  match l with
  | [] => [x]
  | y :: l' =>
    if (0 <? comparefn x y)%Z then y :: insert x l' else x :: y :: l'
  end.

Fixpoint Array_sort (l : list A) : list A :=
  match l with
  | [] => []
  | x :: l' => insert x (Array_sort l')
  end.
End ArraySort.

Section Normalizer.
(** [String.prototype.localeCompare] is provided by the host's collation
    and is a parameter of the model. *)
Variable localeCompare : jsstring -> jsstring -> Z.

(** The comparison function given to [mapped.sort] (lines 73-81). *)
Definition compareJobs (a b : Job) : Z :=
  if negb (visa_eqb (visaStatus a) (visaStatus b)) then
    if visa_eqb (visaStatus a) Mentioned then (-1)%Z else 1%Z
  else if negb (str_eqb (country a) (country b)) then
    localeCompare (country a) (country b)
  else localeCompare (company a) (company b).

(** [getJobs], as a function of the records of [jobs.json]. *)
Definition getJobs (rawJobs : list Raw.RawJob) : list Job :=
  let mapped := List.map normalize rawJobs in
  Array_sort compareJobs mapped.
End Normalizer.

(* ================================================================= *)
(** ** Statistics *)

(** [x < y] on strings: lexicographic order of the code units. *)
Fixpoint str_ltb (a b : jsstring) : bool :=
  match a, b with
  | _, [] => false
  | [], _ :: _ => true
  | x :: a', y :: b' => (x <? y)%N || ((x =? y)%N && str_ltb a' b')
  end.

(** The comparison used by [sort()] without a comparison function. *)
Definition default_compare (x y : jsstring) : Z :=
  if str_ltb x y then (-1)%Z else if str_ltb y x then 1%Z else 0%Z.

(** [new Set(values)] keeps the distinct values in insertion order, and
    [Array.from] lists them in that order. *)
Definition Set_add (s : list jsstring) (x : jsstring) : list jsstring :=
  if existsb (str_eqb x) s then s else s ++ [x].

Definition Set_from (values : list jsstring) : list jsstring :=
  fold_left Set_add values [].

Record JobStats := {
  total : Z;
  visaMentioned : Z;
  visaNotMentioned : Z;
  countries : list jsstring;
  jobTypes : list jsstring
}.

Definition getJobStats (jobs : list Job) : JobStats :=
  let visaMentioned :=
    Z.of_nat (length (filter (fun job => visa_eqb (visaStatus job) Mentioned) jobs)) in
  let visaNotMentioned := (Z.of_nat (length jobs) - visaMentioned)%Z in
  let countries := Array_sort default_compare (Set_from (List.map country jobs)) in
  let jobTypes := Array_sort default_compare (Set_from (List.map jobType jobs)) in
  {| total := Z.of_nat (length jobs);
     visaMentioned := visaMentioned;
     visaNotMentioned := visaNotMentioned;
     countries := countries;
     jobTypes := jobTypes |}.

(* ================================================================= *)
(** ** Filters of the job explorer *)

(** The state [visaStatus] of the component: a status or ["All"]. *)
Inductive VisaFilter := AllStatuses | Only (v : VisaStatus).

Definition visa_filter_eqb (job : VisaStatus) (f : VisaFilter) : bool :=
  match f with
  | AllStatuses => false
  | Only v => visa_eqb job v
  end.

Definition is_all (f : VisaFilter) : bool :=
  match f with AllStatuses => true | Only _ => false end.

Definition truthy (s : jsstring) : bool :=
  match s with [] => false | _ => true end.

Section Explorer.
(** [String.prototype.toLowerCase] follows the Unicode case mappings of
    the host and is a parameter of the model. *)
Variable toLowerCase : jsstring -> jsstring.

(** The callback of [jobs.filter] (lines 34-43). *)
Definition keep (country' jobType' : jsstring) (visaStatus' : VisaFilter)
           (searchTerm : jsstring) (job : Job) : bool :=
  if negb (str_eqb country' (lit "All")) && negb (str_eqb (country job) country')
  then false
  else if negb (str_eqb jobType' (lit "All")) && negb (str_eqb (jobType job) jobType')
  then false
  else if negb (is_all visaStatus') && negb (visa_filter_eqb (visaStatus job) visaStatus')
  then false
  else if truthy (trim searchTerm) then
    let haystack :=
      toLowerCase (title job ++ lit " " ++ company job ++ lit " " ++ reason job) in
    if negb (includes haystack (toLowerCase (trim searchTerm))) then false
    else true
  else true.

Definition filteredJobs (jobs : list Job) (country' jobType' : jsstring)
           (visaStatus' : VisaFilter) (searchTerm : jsstring) : list Job :=
  filter (keep country' jobType' visaStatus' searchTerm) jobs.
End Explorer.

Definition priorityJobs (filteredJobs : list Job) : list Job :=
  filter (fun job => visa_eqb (visaStatus job) Mentioned) filteredJobs.

Definition otherJobs (filteredJobs : list Job) : list Job :=
  filter (fun job => negb (visa_eqb (visaStatus job) Mentioned)) filteredJobs.

(* ================================================================= *)
(** ** Notions used in the statements and in the proofs *)

Arguments char_eqb : simpl never.
Arguments not_gt : simpl never.
Arguments is_ws : simpl never.

(** [Matches r w]: the word [w] is in the language of the pattern [r]. *)
Inductive Matches : regex -> jsstring -> Prop :=
| M_nil : Matches [] []
| M_cls p r c w :
    p c = true -> Matches r w -> Matches (Cls p :: r) (c :: w)
| M_opt_some p r c w :
    p c = true -> Matches r w -> Matches (Opt p :: r) (c :: w)
| M_opt_none p r w :
    Matches r w -> Matches (Opt p :: r) w
| M_star_more p r c w :
    p c = true -> Matches (Star p :: r) w -> Matches (Star p :: r) (c :: w)
| M_star_done p r w :
    Matches r w -> Matches (Star p :: r) w
| M_plus p r c w :
    p c = true -> Matches (Star p :: r) w -> Matches (Plus p :: r) (c :: w).

(** A matcher is proper when every match is non-empty and lies within the
    string. *)
Definition proper (m : jsstring -> option nat) : Prop :=
  forall s n, m s = Some n -> 0 < n <= length s.

(** [tagb s]: a markup tag starts at the beginning of [s], that is, [s]
    starts with a word of [/<[^>]+>/]. *)
Definition tagb (s : jsstring) : bool :=
  match s with
  | c0 :: c1 :: t => char_eqb c_lt c0 && not_gt c1 && existsb (char_eqb c_gt) t
  | _ => false
  end.

(** No tag starts anywhere in [s]. *)
Definition NoTag (s : jsstring) : Prop :=
  forall u v, s = u ++ v -> tagb v = false.

Fixpoint ends_with_gt (r : regex) : Prop :=
  match r with
  | [] => False
  | a :: r' =>
    match r' with
    | [] => match a with
            | Cls p => forall x, p x = true -> x = c_gt
            | _ => False
            end
    | _ :: _ => ends_with_gt r'
    end
  end.

(** The patterns of the structural rules. *)
Definition markup_patterns : list regex :=
  [re_br; re_li; re_strong; re_em; re_p; re_ul; re_tag].

Fixpoint squeeze (after_ws : bool) (s : jsstring) : jsstring :=
  match s with
  | [] => []
  | c :: t =>
    if is_ws c then
      if after_ws then squeeze true t else c_space :: squeeze true t
    else c :: squeeze false t
  end.

Fixpoint ws_run (s : jsstring) : nat :=
  match s with
  | c :: t => if is_ws c then S (ws_run t) else 0
  | [] => 0
  end.

(** The first character, if any, is not whitespace. *)
Definition starts_ok (s : jsstring) : bool :=
  match s with
  | [] => true
  | c :: _ => negb (is_ws c)
  end.

Definition trimmedb (s : jsstring) : bool := starts_ok s && starts_ok (rev s).

(** Whitespace occurs only as single spaces between other characters (or
    as a last character). *)
Fixpoint collapsedb (s : jsstring) : bool :=
  match s with
  | [] => true
  | c :: t =>
    (negb (is_ws c) || (char_eqb c c_space && starts_ok t)) && collapsedb t
  end.

(** What holds of [result] at line 54, and of every returned snippet. *)
Record Clean (r : jsstring) : Prop := {
  clean_notag : NoTag r;
  clean_collapsed : collapsedb r = true;
  clean_trimmed : trimmedb r = true
}.

(** The matcher of a literal separator. *)
Definition lit_match (sep s : jsstring) : option nat :=
  if is_prefix sep s then Some (length sep) else None.

Definition replace_lit (sep v s : jsstring) : jsstring :=
  replace_go (lit_match sep) v 0 s.

(** Some entity of the table occurs in the text. *)
Definition has_entity (r : jsstring) : bool :=
  existsb (fun ev => includes r (fst ev)) HTML_ENTITIES.

(** Writing [<] as [&lt;] and [>] as [&gt;]. *)
Definition encode_char (lt gt : bool) (c : char) : jsstring :=
  if lt && char_eqb c c_lt then lit "&lt;"
  else if gt && char_eqb c c_gt then lit "&gt;"
  else [c].

Definition encode (lt gt : bool) (s : jsstring) : jsstring :=
  flat_map (encode_char lt gt) s.

Definition encode_angle : jsstring -> jsstring := encode true true.

Definition no_ws (s : jsstring) : bool := forallb (fun x => negb (is_ws x)) s.

Definition visa_rank (v : VisaStatus) : nat :=
  match v with Mentioned => 0 | NotMentioned => 1 end.

(** The three-key order: visa status by rank, then country, then company,
    the two texts compared by [lc]. *)
Definition job_le (lc : jsstring -> jsstring -> Z) (a b : Job) : Prop :=
  visa_rank (visaStatus a) < visa_rank (visaStatus b) \/
  (visaStatus a = visaStatus b /\
   ((lc (country a) (country b) < 0)%Z \/
    (country a = country b /\ (lc (company a) (company b) <= 0)%Z))).

(** Equal on the three keys. *)
Definition same_keys (k j : Job) : bool :=
  visa_eqb (visaStatus j) (visaStatus k) &&
  str_eqb (country j) (country k) &&
  str_eqb (company j) (company k).

(** What ECMAScript requires of [localeCompare]: a consistent comparison
    function, that is, a total preorder on all strings. *)
Record Collation (lc : jsstring -> jsstring -> Z) : Prop := {
  lc_refl : forall a, lc a a = 0%Z;
  lc_anti : forall a b, (0 < lc a b <-> lc b a < 0)%Z;
  lc_trans : forall a b c, (lc a b <= 0 -> lc b c <= 0 -> lc a c <= 0)%Z
}.

(** The collation tells the two texts apart unless they are equal. *)
Definition separates (lc : jsstring -> jsstring -> Z) (a b : jsstring) : Prop :=
  lc a b = 0%Z -> a = b.

(** No two different countries of the records are equal for the
    collation. *)
Definition countries_separated (lc : jsstring -> jsstring -> Z)
           (rawJobs : list Raw.RawJob) : Prop :=
  forall a b, In a rawJobs -> In b rawJobs ->
              separates lc (Raw.country a) (Raw.country b).

(** [Partition l p o]: [l] is dealt, in order, into the jobs [p] with a
    mentioned visa and the others [o]. *)
Inductive Partition : list Job -> list Job -> list Job -> Prop :=
| Part_nil : Partition [] [] []
| Part_priority j l p o :
    visaStatus j = Mentioned -> Partition l p o ->
    Partition (j :: l) (j :: p) o
| Part_other j l p o :
    visaStatus j <> Mentioned -> Partition l p o ->
    Partition (j :: l) p (j :: o).

Fixpoint count_status (v : VisaStatus) (jobs : list Job) : nat :=
  match jobs with
  | [] => 0
  | j :: rest =>
    match visaStatus j, v with
    | Mentioned, Mentioned | NotMentioned, NotMentioned =>
      S (count_status v rest)
    | _, _ => count_status v rest
    end
  end.

(** ASCII: [toLowerCase] maps [A-Z] to [a-z] and nothing else. *)
Definition is_ascii (c : char) : bool := (c <? 128)%N.

Definition ascii_lower (c : char) : char :=
  if ((65 <=? c) && (c <=? 90))%N then (c + 32)%N else c.

(** The reading under which encoded markup would survive the structural
    rules: without a literal [<] in the input, lines 46-52 leave the decoded
    text as it is. *)
Definition encoded_markup_kept (s : jsstring) : Prop :=
  ~ In c_lt s -> strip_markup (decode_entities s) = decode_entities s.

Definition fixture_snippet : jsstring :=
  lit "Relocation &amp; visa <strong>sponsored</strong><br>Apply now".

Definition sample_raw (company' country' : string) (v : VisaStatus)
           (link' : string) : Raw.RawJob := {|
  Raw.title := lit "Video Editor";
  Raw.company := lit company';
  Raw.country := lit country';
  Raw.location := lit "Remote";
  Raw.visa_status := v;
  Raw.visa_snippet := Some (lit "Visa <em>sponsored</em>");
  Raw.job_type := lit "Video";
  Raw.reason := lit "Editing skills";
  Raw.link := lit link';
  Raw.source := lit "board"
|}.

Definition sample_raw_jobs : list Raw.RawJob :=
  [ sample_raw "Zeta" "UK" NotMentioned "1";
    sample_raw "Beta" "UK" Mentioned "2";
    sample_raw "Acme" "France" Mentioned "3";
    sample_raw "Beta" "UK" Mentioned "4" ].

(** An ASCII-only model of [toLowerCase]. *)
Definition ascii_toLowerCase (s : jsstring) : jsstring :=
  List.map ascii_lower s.

(** The least length of a word of a pattern. *)
Fixpoint min_len (r : regex) : nat :=
  match r with
  | [] => 0
  | Cls _ :: r' | Plus _ :: r' => S (min_len r')
  | Opt _ :: r' | Star _ :: r' => min_len r'
  end.

(** The characters that the sanitizer can add to a text: the values of the
    entities, the replacement texts of the rules and the ellipsis. *)
Definition added_chars : list char :=
  [c_space; c_amp; c_lt; c_gt; 34%N; 39%N; c_bullet; c_ellipsis].

(** HTML escaping of the characters [<], [>], double and single quote, as a
    table from a character to the entity that stands for it. *)
Definition escape_table : list (char * jsstring) :=
  [ (c_lt, lit "&lt;"); (c_gt, lit "&gt;");
    (34%N, lit "&quot;"); (39%N, lit "&#39;") ].

Definition escape_char (tbl : list (char * jsstring)) (c : char) : jsstring :=
  match find (fun p => char_eqb c (fst p)) tbl with
  | Some p => snd p
  | None => [c]
  end.

Definition escape_with (tbl : list (char * jsstring)) (s : jsstring) : jsstring :=
  flat_map (escape_char tbl) s.

Definition escape : jsstring -> jsstring := escape_with escape_table.

(** An entity of the table is skipped by the search for [sep]. *)
Definition skipped_by (sep : jsstring) (tbl : list (char * jsstring)) : Prop :=
  Forall (fun p => exists body, snd p = c_amp :: body /\ ~ In c_amp body /\
                                forall t, is_prefix sep (snd p ++ t) = false)
         tbl.

(** [l] is ordered for the comparison function: no element is reported
    greater than a later one. *)
Definition ordered_for {A} (cmp : A -> A -> Z) (l : list A) : Prop :=
  StronglySorted (fun x y => (cmp x y <= 0)%Z) l.

Definition ascii_upper (c : char) : char :=
  if ((97 <=? c) && (c <=? 122))%N then (c - 32)%N else c.

(** The records of [sample_raw_jobs] in the order of [getJobs]. *)
Definition ordered_raw_jobs : list Raw.RawJob :=
  [ sample_raw "Acme" "France" Mentioned "3";
    sample_raw "Beta" "UK" Mentioned "2";
    sample_raw "Beta" "UK" Mentioned "4";
    sample_raw "Zeta" "UK" NotMentioned "1" ].

(** A change of ASCII case: it keeps whitespace and ASCII characters, and
    is undone by [ascii_lower]. *)
Definition case_change (f : char -> char) : Prop :=
  forall x, is_ws (f x) = is_ws x /\
            (is_ascii x = true ->
             is_ascii (f x) = true /\ ascii_lower (f x) = ascii_lower x).

(** Canonical composition of the one pair that the example below needs:
    [e] followed by the combining acute accent (U+0301) is the letter
    U+00E9. *)
Fixpoint compose_acute (s : jsstring) : jsstring :=
  match s with
  | [] => []
  | c :: t =>
    match t with
    | d :: t' =>
      if ((c =? 101) && (d =? 769))%N then 233%N :: compose_acute t'
      else c :: compose_acute t
    | [] => [c]
    end
  end.

(** A host collation that, as ECMAScript recommends for [localeCompare] and
    as the hosts built on ICU do, returns 0 for canonically equivalent
    strings: the code units are compared after composition. *)
Definition host_lc (a b : jsstring) : Z :=
  default_compare (compose_acute a) (compose_acute b).

(** The three-key order with the countries compared by the collation
    alone: jobs whose countries are equal for the collation are ordered by
    company. *)
Definition job_le_collated (lc : jsstring -> jsstring -> Z) (a b : Job) : Prop :=
  visa_rank (visaStatus a) < visa_rank (visaStatus b) \/
  (visaStatus a = visaStatus b /\
   ((lc (country a) (country b) < 0)%Z \/
    ((lc (country a) (country b) = 0)%Z /\
     (lc (company a) (company b) <= 0)%Z))).

Definition mentioned_raw (company' : string) (country' : jsstring)
           (link' : string) : Raw.RawJob := {|
  Raw.title := lit "Video Editor";
  Raw.company := lit company';
  Raw.country := country';
  Raw.location := lit "Remote";
  Raw.visa_status := Mentioned;
  Raw.visa_snippet := None;
  Raw.job_type := lit "Video";
  Raw.reason := lit "Editing skills";
  Raw.link := lit link';
  Raw.source := lit "board"
|}.

(** Two records of one country, R\u00E9union, spelled with the composed
    letter in the first and with [e] and the combining accent in the
    second. *)
Definition reunion_raw_jobs : list Raw.RawJob :=
  [ mentioned_raw "Zeta" (lit "R" ++ [233%N] ++ lit "union") "1";
    mentioned_raw "Acme" (lit "Re" ++ [769%N] ++ lit "union") "2" ].

(* ================================================================= *)
(** ** Sanity checks on concrete inputs *)

Example fixture_spec :
  cleanSnippet (Some (lit "Relocation &amp; visa <strong>sponsored</strong><br>Apply now"))
  = Some (lit "Relocation & visa sponsored Apply now").
Proof. vm_compute. reflexivity. Qed.

Example list_markup :
  cleanSnippet (Some (lit "<UL><li>Visa</LI><li>Flat</li></ul><BR  />x</P>"))
  = Some ([c_bullet] ++ lit " Visa " ++ [c_bullet] ++ lit " " ++ [c_bullet]
          ++ lit " Flat " ++ [c_bullet] ++ lit " x").
Proof. vm_compute. reflexivity. Qed.

Example absent_results :
  cleanSnippet None = None /\
  cleanSnippet (Some []) = None /\
  cleanSnippet (Some (lit "  <p> </p> &nbsp; ")) = None.
Proof. vm_compute. auto. Qed.

(** [</>] is a tag for the generic pattern (the [/] is then read as the
    content), [<>] is not, and a [<] without a later [>] stays. *)
Example generic_tags :
  re_match re_tag (lit "</>x") = Some 3 /\
  re_match re_tag (lit "<>x") = None /\
  cleanSnippet (Some (lit "a > b <> </> <<a> <br"))
  = Some (lit "a > b <> <br").
Proof. vm_compute. auto. Qed.

Example split_examples :
  split (lit "ab") (lit "xabababay") = [lit "x"; []; []; lit "ay"] /\
  split (lit "aa") (lit "aaa") = [[]; lit "a"] /\
  split (lit "aa") [] = [[]].
Proof. vm_compute. auto. Qed.

(* ================================================================= *)
(** ** Declarative reading of the patterns *)

#[local] Hint Constructors Matches : core.

Lemma re_match_star_cons p r c t :
  re_match (Star p :: r) (c :: t) =
  if p c then
    match re_match (Star p :: r) t with
    | Some n => Some (S n)
    | None => re_match r (c :: t)
    end
  else re_match r (c :: t).
Proof. reflexivity. Qed.

Lemma re_match_star_nil p r : re_match (Star p :: r) [] = re_match r [].
Proof. reflexivity. Qed.

Lemma re_match_plus_cons p r c t :
  re_match (Plus p :: r) (c :: t) =
  if p c then option_map S (re_match (Star p :: r) t) else None.
Proof. reflexivity. Qed.

Lemma re_match_star_sound p r :
  (forall s n, re_match r s = Some n ->
               n <= length s /\ Matches r (firstn n s)) ->
  forall s n, re_match (Star p :: r) s = Some n ->
              n <= length s /\ Matches (Star p :: r) (firstn n s).
Proof.
  intros IH s. induction s as [|c t IHs]; intros n H.
  - rewrite re_match_star_nil in H. apply IH in H. destruct H as [Hn Hm].
    split; [exact Hn|]. apply M_star_done. exact Hm.
  - rewrite re_match_star_cons in H.
    destruct (p c) eqn:Hp.
    + destruct (re_match (Star p :: r) t) as [k|] eqn:Hk.
      * inversion H; subst. destruct (IHs k eq_refl) as [Hl Hm].
        simpl. split; [lia|]. apply M_star_more; assumption.
      * apply IH in H. destruct H. split; [assumption|].
        apply M_star_done. assumption.
    + apply IH in H. destruct H. split; [assumption|].
      apply M_star_done. assumption.
Qed.

(** The matcher only reports words of the pattern, read from the start. *)
Lemma re_match_sound r :
  forall s n, re_match r s = Some n ->
              n <= length s /\ Matches r (firstn n s).
Proof.
  induction r as [|a r IH]; intros s n H.
  - simpl in H. inversion H; subst. simpl. split; [lia|constructor].
  - destruct a as [p|p|p|p].
    + destruct s as [|c t]; simpl in H; [discriminate|].
      destruct (p c) eqn:Hp; [|discriminate].
      destruct (re_match r t) as [k|] eqn:Hk; simpl in H; [|discriminate].
      inversion H; subst. apply IH in Hk. destruct Hk.
      simpl. split; [lia|]. constructor; assumption.
    + destruct s as [|c t]; simpl in H.
      * apply IH in H. destruct H. split; [assumption|].
        apply M_opt_none. assumption.
      * destruct (p c) eqn:Hp.
        -- destruct (re_match r t) as [k|] eqn:Hk.
           ++ inversion H; subst. apply IH in Hk. destruct Hk.
              simpl. split; [lia|]. apply M_opt_some; assumption.
           ++ apply IH in H. destruct H. split; [assumption|].
              apply M_opt_none. assumption.
        -- apply IH in H. destruct H. split; [assumption|].
           apply M_opt_none. assumption.
    + apply re_match_star_sound; assumption.
    + destruct s as [|c t]; [discriminate|].
      rewrite re_match_plus_cons in H.
      destruct (p c) eqn:Hp; [|discriminate].
      destruct (re_match (Star p :: r) t) as [k|] eqn:Hk; simpl in H;
        [|discriminate].
      inversion H; subst.
      apply (re_match_star_sound p r IH) in Hk. destruct Hk.
      simpl. split; [lia|]. apply M_plus; assumption.
Qed.

(** Whenever a prefix of the string is a word of the pattern, the matcher
    finds a match. *)
Lemma re_match_complete r w :
  Matches r w -> forall rest, exists n, re_match r (w ++ rest) = Some n.
Proof.
  induction 1 as [|p r c w Hp _ IH|p r c w Hp _ IH|p r w _ IH
                  |p r c w Hp _ IH|p r w _ IH|p r c w Hp _ IH]; intros rest.
  - exists 0. reflexivity.
  - destruct (IH rest) as [n Hn]. exists (S n). simpl. rewrite Hp, Hn.
    reflexivity.
  - destruct (IH rest) as [n Hn]. exists (S n). simpl. rewrite Hp, Hn.
    reflexivity.
  - destruct (IH rest) as [n Hn].
    destruct (w ++ rest) as [|c t]; simpl.
    + exists n. exact Hn.
    + destruct (p c).
      * destruct (re_match r t) as [k|]; [exists (S k)|exists n]; auto.
      * exists n. exact Hn.
  - destruct (IH rest) as [n Hn]. exists (S n). simpl app.
    rewrite re_match_star_cons, Hp, Hn. reflexivity.
  - destruct (IH rest) as [n Hn].
    destruct (w ++ rest) as [|c t].
    + exists n. rewrite re_match_star_nil. exact Hn.
    + rewrite re_match_star_cons. destruct (p c).
      * destruct (re_match (Star p :: r) t) as [k|];
          [exists (S k)|exists n]; auto.
      * exists n. exact Hn.
  - destruct (IH rest) as [n Hn]. exists (S n). simpl app.
    rewrite re_match_plus_cons, Hp, Hn. reflexivity.
Qed.

Lemma proper_cls p r : proper (re_match (Cls p :: r)).
Proof.
  intros s n H. destruct (re_match_sound _ _ _ H) as [Hl Hm].
  split; [|exact Hl]. destruct n; [|lia]. simpl in Hm. inversion Hm.
Qed.

Lemma proper_plus p r : proper (re_match (Plus p :: r)).
Proof.
  intros s n H. destruct (re_match_sound _ _ _ H) as [Hl Hm].
  split; [|exact Hl]. destruct n; [|lia]. simpl in Hm. inversion Hm.
Qed.

(* ================================================================= *)
(** ** Global replacement with a proper matcher *)

Section ReplaceFacts.
Variable m : jsstring -> option nat.
Variable rep : jsstring.
Hypothesis m_proper : proper m.

Let R := replace_go m rep 0.

Lemma m_nil : m [] = None.
Proof.
  destruct (m []) as [n|] eqn:H; [|reflexivity].
  apply m_proper in H. simpl in H. lia.
Qed.

Lemma replace_go_nil k : replace_go m rep k [] = [].
Proof. simpl. rewrite m_nil. destruct k; reflexivity. Qed.

Lemma replace_go_skip k s : replace_go m rep k s = R (skipn k s).
Proof.
  revert k. induction s as [|c t IH]; intros k.
  - rewrite skipn_nil. unfold R. rewrite !replace_go_nil. reflexivity.
  - destruct k; [reflexivity|]. simpl. apply IH.
Qed.

Lemma replace_nil : R [] = [].
Proof. apply replace_go_nil. Qed.

Lemma replace_cons_none c t :
  m (c :: t) = None -> R (c :: t) = c :: R t.
Proof. intros H. unfold R. simpl. rewrite H. reflexivity. Qed.

Lemma replace_cons_some c t n :
  m (c :: t) = Some (S n) -> R (c :: t) = rep ++ R (skipn n t).
Proof.
  intros H. unfold R at 1. simpl. rewrite H, replace_go_skip. reflexivity.
Qed.

(** Induction along the scan of [replace]. *)
Lemma replace_scan_ind (P : jsstring -> jsstring -> Prop) :
  P [] [] ->
  (forall c t, m (c :: t) = None -> P t (R t) -> P (c :: t) (c :: R t)) ->
  (forall c t n, m (c :: t) = Some (S n) -> n <= length t ->
                 P (skipn n t) (R (skipn n t)) ->
                 P (c :: t) (rep ++ R (skipn n t))) ->
  forall s, P s (R s).
Proof.
  intros Hnil Hnone Hsome s.
  remember (length s) as k eqn:Hk. revert s Hk.
  induction k as [k IH] using lt_wf_ind. intros s Hk.
  destruct s as [|c t].
  - rewrite replace_nil. exact Hnil.
  - destruct (m (c :: t)) as [n|] eqn:Hm.
    + destruct (m_proper _ _ Hm) as [Hpos Hle].
      destruct n as [|n]; [lia|]. simpl in Hle.
      rewrite (replace_cons_some _ _ _ Hm).
      apply Hsome; [exact Hm|lia|].
      apply (IH (length (skipn n t))); [|reflexivity].
      rewrite length_skipn. simpl in Hk. lia.
    + rewrite (replace_cons_none _ _ Hm). apply Hnone; [exact Hm|].
      apply (IH (length t)); [|reflexivity]. simpl in Hk. lia.
Qed.

(** Every character of the result comes from the input or from the
    replacement text. *)
Lemma In_replace x s : In x (R s) -> In x s \/ In x rep.
Proof.
  revert x. pattern s, (R s). apply replace_scan_ind.
  - intros x [].
  - intros c t _ IH x [Hx|Hx]; [left; left; exact Hx|].
    destruct (IH x Hx); [left; right|right]; assumption.
  - intros c t n _ _ IH x Hx. apply in_app_or in Hx.
    destruct Hx as [Hx|Hx]; [right; exact Hx|].
    destruct (IH x Hx) as [H|H]; [left; right|right; exact H].
    rewrite <- (firstn_skipn n t). apply in_or_app. right. exact H.
Qed.

(** A string without any match is left as it is. *)
Lemma replace_no_match s :
  (forall u v, s = u ++ v -> m v = None) -> R s = s.
Proof.
  induction s as [|c t IH]; intros H.
  - apply replace_nil.
  - rewrite replace_cons_none by (apply (H []); reflexivity).
    f_equal. apply IH. intros u v ->. apply (H (c :: u)). reflexivity.
Qed.

End ReplaceFacts.

(* ================================================================= *)
(** ** Tags *)

Lemma char_eqb_eq a b : char_eqb a b = true <-> a = b.
Proof. apply N.eqb_eq. Qed.

Lemma existsb_gt_In t : existsb (char_eqb c_gt) t = true <-> In c_gt t.
Proof.
  rewrite existsb_exists. split.
  - intros (x & Hx & He). apply char_eqb_eq in He. subst. exact Hx.
  - intros H. exists c_gt. split; [exact H|]. apply char_eqb_eq. reflexivity.
Qed.

Lemma Matches_ends_gt r w : Matches r w -> ends_with_gt r -> In c_gt w.
Proof.
  induction 1 as [|p r c w Hp Hm IH|p r c w Hp Hm IH|p r w Hm IH
                  |p r c w Hp Hm IH|p r w Hm IH|p r c w Hp Hm IH]; intros He.
  - destruct He.
  - destruct r as [|a r].
    + left. simpl in He. apply He. exact Hp.
    + right. apply IH. exact He.
  - destruct r as [|a r]; [destruct He|]. right. apply IH. exact He.
  - destruct r as [|a r]; [destruct He|]. apply IH. exact He.
  - right. apply IH. exact He.
  - destruct r as [|a r]; [destruct He|]. apply IH. exact He.
  - destruct r as [|a r]; [destruct He|]. right. apply IH. exact He.
Qed.

Lemma tagb_intro c1 t rest :
  not_gt c1 = true -> In c_gt t -> tagb ((c_lt :: c1 :: t) ++ rest) = true.
Proof.
  intros H1 H2. simpl. rewrite H1. simpl.
  apply existsb_gt_In. apply in_or_app. left. exact H2.
Qed.

Lemma chr_i_not_gt c x :
  canon c <> c_gt ->
  char_eqb (canon x) (canon c) && (x <? 128)%N = true -> not_gt x = true.
Proof.
  intros Hc H. apply andb_true_iff in H. destruct H as [H _].
  apply char_eqb_eq in H. unfold not_gt.
  destruct (char_eqb c_gt x) eqn:E; [|reflexivity].
  apply char_eqb_eq in E. subst x. exfalso. apply Hc. rewrite <- H.
  reflexivity.
Qed.

(** Words of the patterns [<\/?X...>] whose first letter class excludes [>]. *)
Lemma Matches_closing_tag p r w rest :
  (forall x, p x = true -> not_gt x = true) ->
  ends_with_gt r ->
  Matches (chr c_lt :: Opt (char_eqb c_slash) :: Cls p :: r) w ->
  tagb (w ++ rest) = true.
Proof.
  intros Hp He H.
  inversion H as [|? ? c0 w0 H0 Hm0| | | | |]; subst. clear H.
  apply char_eqb_eq in H0. subst c0.
  assert (He' : ends_with_gt (Cls p :: r)).
  { destruct r; [destruct He|exact He]. }
  inversion Hm0 as [| |? ? c1 w1 H1 Hm1|? ? ? Hm1| | |]; subst; clear Hm0.
  - apply char_eqb_eq in H1. subst c1.
    apply tagb_intro; [reflexivity|].
    apply (Matches_ends_gt _ _ Hm1 He').
  - inversion Hm1 as [|? ? c1 w1 H1 Hm2| | | | |]; subst; clear Hm1.
    apply tagb_intro; [apply Hp; exact H1|].
    apply (Matches_ends_gt _ _ Hm2 He).
Qed.

Lemma Matches_re_tag w rest : Matches re_tag w -> tagb (w ++ rest) = true.
Proof.
  unfold re_tag. intros H.
  assert (Hg : forall x, char_eqb c_gt x = true -> x = c_gt).
  { intros x Hx. apply char_eqb_eq in Hx. congruence. }
  inversion H as [|? ? c0 w0 H0 Hm0| | | | |]; subst. clear H.
  apply char_eqb_eq in H0. subst c0.
  inversion Hm0 as [| |? ? c1 w1 H1 Hm1|? ? ? Hm1| | |]; subst; clear Hm0.
  - apply char_eqb_eq in H1. subst c1.
    apply tagb_intro; [reflexivity|].
    apply (Matches_ends_gt _ _ Hm1). exact Hg.
  - inversion Hm1 as [| | | | | |? ? c1 w1 H1 Hm2]; subst; clear Hm1.
    apply tagb_intro; [exact H1|].
    apply (Matches_ends_gt _ _ Hm2). exact Hg.
Qed.

Lemma Matches_re_br w rest : Matches re_br w -> tagb (w ++ rest) = true.
Proof.
  unfold re_br. intros H.
  inversion H as [|? ? c0 w0 H0 Hm0| | | | |]; subst. clear H.
  apply char_eqb_eq in H0. subst c0.
  inversion Hm0 as [|? ? c1 w1 H1 Hm1| | | | |]; subst. clear Hm0.
  apply tagb_intro.
  - apply (chr_i_not_gt 98%N); [discriminate|exact H1].
  - apply (Matches_ends_gt _ _ Hm1). intros x Hx.
    apply char_eqb_eq in Hx. congruence.
Qed.

Lemma markup_pattern_words r w rest :
  In r markup_patterns -> Matches r w -> tagb (w ++ rest) = true.
Proof.
  assert (Hg : forall x, char_eqb c_gt x = true -> x = c_gt).
  { intros x Hx. apply char_eqb_eq in Hx. congruence. }
  intros Hin. simpl in Hin.
  destruct Hin as [<-|[<-|[<-|[<-|[<-|[<-|[<-|[]]]]]]]].
  - apply Matches_re_br.
  - apply Matches_closing_tag; [|simpl; exact Hg].
    intros x. apply (chr_i_not_gt 108%N). discriminate.
  - apply Matches_closing_tag; [|simpl; exact Hg].
    intros x. apply (chr_i_not_gt 115%N). discriminate.
  - apply Matches_closing_tag; [|simpl; exact Hg].
    intros x. apply (chr_i_not_gt 101%N). discriminate.
  - apply Matches_closing_tag; [|simpl; exact Hg].
    intros x. apply (chr_i_not_gt 112%N). discriminate.
  - apply Matches_closing_tag; [|simpl; exact Hg].
    intros x. apply (chr_i_not_gt 117%N). discriminate.
  - apply Matches_re_tag.
Qed.

(** Each structural pattern only matches where a tag starts. *)
Lemma markup_match_tag r s n :
  In r markup_patterns -> re_match r s = Some n -> tagb s = true.
Proof.
  intros Hin H. apply re_match_sound in H. destruct H as [_ Hm].
  rewrite <- (firstn_skipn n s).
  apply (markup_pattern_words r); assumption.
Qed.

Lemma markup_pattern_proper r : In r markup_patterns -> proper (re_match r).
Proof.
  intros Hin. simpl in Hin.
  destruct Hin as [<-|[<-|[<-|[<-|[<-|[<-|[<-|[]]]]]]]]; apply proper_cls.
Qed.

Lemma Matches_star_intro p r w1 w2 :
  forallb p w1 = true -> Matches r w2 -> Matches (Star p :: r) (w1 ++ w2).
Proof.
  induction w1 as [|c w1 IH]; simpl; intros Hall Hm.
  - apply M_star_done. exact Hm.
  - apply andb_true_iff in Hall. destruct Hall as [Hc Hall].
    apply M_star_more; [exact Hc|]. apply IH; assumption.
Qed.

Lemma split_first_gt t :
  In c_gt t ->
  exists t1 t2, t = t1 ++ c_gt :: t2 /\ forallb not_gt t1 = true.
Proof.
  induction t as [|c t IH]; intros H; [destruct H|].
  destruct (char_eqb c_gt c) eqn:E.
  - apply char_eqb_eq in E. subst c. exists [], t. auto.
  - destruct H as [H|H].
    + subst c. rewrite (proj2 (char_eqb_eq _ _) eq_refl) in E. discriminate.
    + destruct (IH H) as (t1 & t2 & -> & Hall).
      exists (c :: t1), t2. split; [reflexivity|].
      simpl. unfold not_gt at 1. rewrite E. exact Hall.
Qed.

(** Where a tag starts, the generic pattern of line 52 matches. *)
Lemma tagb_re_tag s : tagb s = true -> exists n, re_match re_tag s = Some n.
Proof.
  destruct s as [|c0 [|c1 t]]; try discriminate. simpl.
  intros H. apply andb_true_iff in H. destruct H as [H Ht].
  apply andb_true_iff in H. destruct H as [H0 H1].
  apply char_eqb_eq in H0. subst c0.
  apply existsb_gt_In in Ht.
  destruct (split_first_gt t Ht) as (t1 & t2 & -> & Hall).
  change (c_lt :: c1 :: t1 ++ c_gt :: t2)
    with ((c_lt :: c1 :: t1 ++ [c_gt]) ++ t2) at 1 || idtac.
  assert (Hm : Matches re_tag (c_lt :: c1 :: t1 ++ [c_gt])).
  { unfold re_tag. apply M_cls; [reflexivity|]. apply M_opt_none.
    apply M_plus; [exact H1|]. apply Matches_star_intro; [exact Hall|].
    apply M_cls; [reflexivity|]. apply M_nil. }
  destruct (re_match_complete _ _ Hm t2) as [n Hn]. exists n.
  rewrite <- Hn. f_equal. simpl. rewrite <- app_assoc. reflexivity.
Qed.

Lemma tagb_app v rest : tagb v = true -> tagb (v ++ rest) = true.
Proof.
  destruct v as [|c0 [|c1 t]]; try discriminate. simpl.
  intros H. apply andb_true_iff in H. destruct H as [H Ht]. rewrite H.
  rewrite existsb_app, Ht. reflexivity.
Qed.

Lemma tagb_snoc v e :
  e <> c_gt -> tagb (v ++ [e]) = true -> tagb v = true.
Proof.
  intros He. destruct v as [|c0 [|c1 t]]; simpl.
  - discriminate.
  - rewrite andb_false_r. discriminate.
  - rewrite existsb_app. simpl. rewrite orb_false_r.
    destruct (char_eqb c_gt e) eqn:E.
    + apply char_eqb_eq in E. congruence.
    + rewrite orb_false_r. auto.
Qed.

Lemma NoTag_nil : NoTag [].
Proof.
  intros u v H. symmetry in H. apply app_eq_nil in H. destruct H; subst.
  reflexivity.
Qed.

Lemma NoTag_cons c s : tagb (c :: s) = false -> NoTag s -> NoTag (c :: s).
Proof.
  intros Hc Hs u v H. destruct u as [|x u]; simpl in H.
  - subst v. exact Hc.
  - inversion H; subst. apply (Hs u v). reflexivity.
Qed.

Lemma NoTag_infix a b c : NoTag (a ++ b ++ c) -> NoTag b.
Proof.
  intros H u v ->. destruct (tagb v) eqn:E; [|reflexivity].
  apply (tagb_app v c) in E. rewrite <- E.
  apply (H (a ++ u) (v ++ c)). rewrite <- !app_assoc. reflexivity.
Qed.

Lemma NoTag_tail c s : NoTag (c :: s) -> NoTag s.
Proof.
  intros H. apply (NoTag_infix [c] s []). rewrite app_nil_r. exact H.
Qed.

Lemma NoTag_skipn n s : NoTag s -> NoTag (skipn n s).
Proof.
  intros H. apply (NoTag_infix (firstn n s) _ []).
  rewrite app_nil_r, firstn_skipn. exact H.
Qed.

Lemma NoTag_firstn n s : NoTag s -> NoTag (firstn n s).
Proof.
  intros H. apply (NoTag_infix [] _ (skipn n s)). simpl.
  rewrite firstn_skipn. exact H.
Qed.

Lemma NoTag_snoc s e : e <> c_gt -> NoTag s -> NoTag (s ++ [e]).
Proof.
  intros He H u v Huv.
  destruct v as [|x v'] using rev_ind; [reflexivity|]. clear IHv'.
  rewrite app_assoc in Huv. apply app_inj_tail in Huv.
  destruct Huv as [Hs <-].
  destruct (tagb (v' ++ [e])) eqn:E; [|reflexivity].
  apply tagb_snoc in E; [|exact He]. rewrite <- E.
  apply (H u v'). exact Hs.
Qed.

Lemma tagb_first c t : tagb (c :: t) = true -> c = c_lt.
Proof.
  destruct t; simpl; [discriminate|]. intros H.
  apply andb_true_iff in H. destruct H as [H _].
  apply andb_true_iff in H. destruct H as [H _].
  apply char_eqb_eq in H. congruence.
Qed.

Lemma NoTag_prepend pre s : ~ In c_lt pre -> NoTag s -> NoTag (pre ++ s).
Proof.
  induction pre as [|x pre IH]; intros Hpre Hs; [exact Hs|].
  simpl. apply NoTag_cons.
  - destruct (tagb (x :: pre ++ s)) eqn:E; [|reflexivity].
    apply tagb_first in E. subst x. exfalso. apply Hpre. left. reflexivity.
  - apply IH; [|exact Hs]. intros Hx. apply Hpre. right. exact Hx.
Qed.

(** Replacing matches by text without [>] creates no tag, for a matcher
    that never matches at a [>]. *)
Section ReplaceTags.
Variable m : jsstring -> option nat.
Variable rep : jsstring.
Hypothesis m_proper : proper m.
Hypothesis m_gt : forall t, m (c_gt :: t) = None.
Hypothesis rep_gt : ~ In c_gt rep.

Lemma tagb_replace_tail t :
  tagb (c_lt :: replace_go m rep 0 t) = true -> tagb (c_lt :: t) = true.
Proof.
  intros H.
  destruct (replace_go m rep 0 t) as [|c1 t'] eqn:E; [discriminate|].
  simpl in H. apply andb_true_iff in H. destruct H as [H1 Ht].
  apply existsb_gt_In in Ht.
  assert (Hin : In c_gt t).
  { destruct (In_replace m rep m_proper c_gt t) as [Hi|Hi].
    - rewrite E. right. exact Ht.
    - exact Hi.
    - contradiction. }
  destruct t as [|d t0]; [destruct Hin|].
  destruct (char_eqb c_gt d) eqn:Ed.
  - apply char_eqb_eq in Ed. subst d.
    rewrite (replace_cons_none m rep _ _ (m_gt t0)) in E.
    inversion E; subst. discriminate.
  - simpl. unfold not_gt. rewrite Ed. simpl. apply existsb_gt_In.
    destruct Hin as [Hd|Hin]; [|exact Hin].
    subst d. rewrite (proj2 (char_eqb_eq _ _) eq_refl) in Ed. discriminate.
Qed.

Lemma NoTag_replace s :
  ~ In c_lt rep -> NoTag s -> NoTag (replace_go m rep 0 s).
Proof.
  intros Hrep. pattern s, (replace_go m rep 0 s).
  apply (replace_scan_ind m rep m_proper).
  - auto.
  - intros c t Hm IH Hno. apply NoTag_cons.
    + destruct (tagb (c :: replace_go m rep 0 t)) eqn:E; [|reflexivity].
      assert (c = c_lt) by (apply (tagb_first _ _ E)). subst c.
      apply tagb_replace_tail in E. rewrite <- E.
      apply (Hno [] _). reflexivity.
    + apply IH. apply (NoTag_tail c). exact Hno.
  - intros c t n Hm Hn IH Hno.
    assert (Hr : NoTag (replace_go m rep 0 (skipn n t))).
    { apply IH. apply NoTag_skipn. apply (NoTag_tail c). exact Hno. }
    apply NoTag_prepend; assumption.
Qed.

(** When the matcher matches wherever a tag starts, no tag is left. *)
Lemma NoTag_replace_all s :
  (forall v, tagb v = true -> m v <> None) ->
  ~ In c_lt rep -> NoTag (replace_go m rep 0 s).
Proof.
  intros Hall Hrep. pattern s, (replace_go m rep 0 s).
  apply (replace_scan_ind m rep m_proper).
  - apply NoTag_nil.
  - intros c t Hm IH. apply NoTag_cons; [|exact IH].
    destruct (tagb (c :: replace_go m rep 0 t)) eqn:E; [|reflexivity].
    assert (c = c_lt) by (apply (tagb_first _ _ E)). subst c.
    apply tagb_replace_tail in E. apply Hall in E. contradiction.
  - intros c t n Hm Hn IH. apply NoTag_prepend; assumption.
Qed.
End ReplaceTags.

Lemma re_match_cls_first p r c t :
  p c = false -> re_match (Cls p :: r) (c :: t) = None.
Proof. intros H. simpl. rewrite H. reflexivity. Qed.

(** After line 52 no tag is left. *)
Lemma NoTag_strip_tags s : NoTag (replace re_tag [c_space] s).
Proof.
  apply NoTag_replace_all.
  - apply proper_cls.
  - intros t. apply re_match_cls_first. reflexivity.
  - intros [H|[]]. discriminate.
  - intros v Hv. destruct (tagb_re_tag v Hv) as [n Hn]. congruence.
  - intros [H|[]]. discriminate.
Qed.

(* ================================================================= *)
(** ** Whitespace: [\s+], [trim] *)

Lemma re_match_ws_star s : re_match [Star is_ws] s = Some (ws_run s).
Proof.
  induction s as [|c t IH]; [reflexivity|].
  rewrite re_match_star_cons, IH. simpl ws_run.
  destruct (is_ws c); reflexivity.
Qed.

Lemma re_match_spaces c t :
  re_match re_spaces (c :: t) =
  if is_ws c then Some (S (ws_run t)) else None.
Proof.
  unfold re_spaces. rewrite re_match_plus_cons, re_match_ws_star.
  reflexivity.
Qed.

Lemma skipn_ws_run t : skipn (ws_run t) t = dropWhile is_ws t.
Proof.
  induction t as [|c t IH]; [reflexivity|]. simpl.
  destruct (is_ws c); [exact IH|reflexivity].
Qed.

Lemma squeeze_true_dropWhile t :
  squeeze true t = squeeze false (dropWhile is_ws t).
Proof.
  induction t as [|c t IH]; [reflexivity|]. simpl.
  destruct (is_ws c) eqn:E; [exact IH|]. simpl. rewrite E. reflexivity.
Qed.

(** Line 53, first half: every run of whitespace becomes one space. *)
Lemma replace_spaces_squeeze s :
  replace re_spaces [c_space] s = squeeze false s.
Proof.
  unfold replace. pattern s, (replace_go (re_match re_spaces) [c_space] 0 s).
  apply replace_scan_ind.
  - apply proper_plus.
  - reflexivity.
  - intros c t Hm IH. rewrite re_match_spaces in Hm. cbn [squeeze].
    destruct (is_ws c); [discriminate|]. rewrite IH. reflexivity.
  - intros c t n Hm _ IH. rewrite re_match_spaces in Hm. cbn [squeeze].
    destruct (is_ws c); [|discriminate]. inversion Hm; subst.
    rewrite IH, skipn_ws_run, squeeze_true_dropWhile. reflexivity.
Qed.

Lemma dropWhile_split {A} (p : A -> bool) s :
  exists a, s = a ++ dropWhile p s /\ forallb p a = true.
Proof.
  induction s as [|c t IH]; [exists []; auto|]. simpl.
  destruct (p c) eqn:E.
  - destruct IH as (a & Ht & Ha). exists (c :: a). simpl.
    rewrite E, Ha. split; [f_equal; exact Ht|reflexivity].
  - exists []. auto.
Qed.

Lemma dropWhile_starts_ok s : starts_ok (dropWhile is_ws s) = true.
Proof.
  induction s as [|c t IH]; [reflexivity|]. simpl.
  destruct (is_ws c) eqn:E; [exact IH|]. simpl. rewrite E. reflexivity.
Qed.

Lemma dropWhile_id s : starts_ok s = true -> dropWhile is_ws s = s.
Proof.
  destruct s as [|c t]; [reflexivity|]. simpl.
  destruct (is_ws c); [discriminate|reflexivity].
Qed.

Lemma trim_infix s : exists a b, s = a ++ trim s ++ b.
Proof.
  unfold trim, trimEnd, trimStart.
  destruct (dropWhile_split is_ws s) as (a & Hs & _).
  destruct (dropWhile_split is_ws (rev (dropWhile is_ws s))) as (b & Hr & _).
  exists a, (rev b). rewrite <- rev_app_distr, <- Hr, rev_involutive.
  exact Hs.
Qed.

Lemma trim_trimmed s : trimmedb (trim s) = true.
Proof.
  unfold trimmedb, trim, trimEnd, trimStart.
  set (x := dropWhile is_ws s).
  assert (Hx : starts_ok x = true) by apply dropWhile_starts_ok.
  destruct (dropWhile_split is_ws (rev x)) as (b & Hr & _).
  set (y := dropWhile is_ws (rev x)) in *.
  assert (Hy : starts_ok y = true) by apply dropWhile_starts_ok.
  rewrite rev_involutive, Hy, andb_true_r.
  assert (Hxy : x = rev y ++ rev b).
  { rewrite <- rev_app_distr, <- Hr, rev_involutive. reflexivity. }
  destruct (rev y) as [|c t] eqn:E; [reflexivity|].
  rewrite Hxy in Hx. exact Hx.
Qed.

Lemma trim_id s : trimmedb s = true -> trim s = s.
Proof.
  unfold trimmedb, trim, trimEnd, trimStart. intros H.
  apply andb_true_iff in H. destruct H as [H1 H2].
  rewrite (dropWhile_id _ H1), (dropWhile_id _ H2). apply rev_involutive.
Qed.

Lemma length_dropWhile {A} (p : A -> bool) s :
  length (dropWhile p s) <= length s.
Proof.
  induction s as [|c t IH]; simpl; [lia|]. destruct (p c); simpl; lia.
Qed.

Lemma length_trim s : length (trim s) <= length s.
Proof.
  unfold trim, trimEnd, trimStart. rewrite length_rev.
  etransitivity; [apply length_dropWhile|]. rewrite length_rev.
  apply length_dropWhile.
Qed.

Lemma squeeze_true_starts_ok s : starts_ok (squeeze true s) = true.
Proof.
  induction s as [|c t IH]; [reflexivity|]. simpl.
  destruct (is_ws c) eqn:E; [exact IH|]. simpl. rewrite E. reflexivity.
Qed.

Lemma collapsedb_squeeze b s : collapsedb (squeeze b s) = true.
Proof.
  revert b. induction s as [|c t IH]; intros b; [reflexivity|]. simpl.
  destruct (is_ws c) eqn:E.
  - destruct b; [apply IH|]. simpl.
    rewrite squeeze_true_starts_ok, IH. reflexivity.
  - simpl. rewrite E, IH. reflexivity.
Qed.

Lemma squeeze_id s : collapsedb s = true -> squeeze false s = s.
Proof.
  induction s as [|c t IH]; [reflexivity|]. simpl. intros H.
  apply andb_true_iff in H. destruct H as [Hc Ht].
  destruct (is_ws c) eqn:E.
  - simpl in Hc. apply andb_true_iff in Hc. destruct Hc as [Hc Hs].
    apply char_eqb_eq in Hc. subst c. f_equal.
    rewrite squeeze_true_dropWhile, (dropWhile_id _ Hs). apply IH. exact Ht.
  - f_equal. apply IH. exact Ht.
Qed.

Lemma starts_ok_app_weak a b : starts_ok (a ++ b) = true -> starts_ok a = true.
Proof. destruct a; [reflexivity|exact (fun H => H)]. Qed.

Lemma collapsedb_app a b :
  collapsedb (a ++ b) = true -> collapsedb a = true /\ collapsedb b = true.
Proof.
  induction a as [|c a IH]; simpl; intros H; [auto|].
  apply andb_true_iff in H. destruct H as [Hc Hr].
  destruct (IH Hr) as [Ha Hb]. split; [|exact Hb].
  rewrite Ha, andb_true_r.
  apply orb_true_iff in Hc. apply orb_true_iff.
  destruct Hc as [Hc|Hc]; [left; exact Hc|right].
  apply andb_true_iff in Hc. destruct Hc as [Hc Hs].
  rewrite Hc. simpl. exact (starts_ok_app_weak _ _ Hs).
Qed.

Lemma collapsedb_infix a b c :
  collapsedb (a ++ b ++ c) = true -> collapsedb b = true.
Proof.
  intros H. apply collapsedb_app in H. destruct H as [_ H].
  apply collapsedb_app in H. tauto.
Qed.

Lemma collapsedb_snoc a e :
  is_ws e = false -> collapsedb a = true -> collapsedb (a ++ [e]) = true.
Proof.
  intros He. induction a as [|c a IH]; simpl; intros H.
  - rewrite He. reflexivity.
  - apply andb_true_iff in H. destruct H as [Hc Ha].
    rewrite (IH Ha), andb_true_r.
    apply orb_true_iff in Hc. apply orb_true_iff.
    destruct Hc as [Hc|Hc]; [left; exact Hc|right].
    apply andb_true_iff in Hc. destruct Hc as [Hc Hs]. rewrite Hc. simpl.
    destruct a; simpl; [rewrite He; reflexivity|exact Hs].
Qed.

Lemma collapsedb_trim s : collapsedb s = true -> collapsedb (trim s) = true.
Proof.
  intros H. destruct (trim_infix s) as (a & b & Hs).
  rewrite Hs in H. exact (collapsedb_infix _ _ _ H).
Qed.

Lemma NoTag_trim s : NoTag s -> NoTag (trim s).
Proof.
  intros H. destruct (trim_infix s) as (a & b & Hs).
  rewrite Hs in H. exact (NoTag_infix _ _ _ H).
Qed.

(* ================================================================= *)
(** ** Invariants of the sanitized text *)

Lemma NoTag_squeeze s : NoTag s -> NoTag (squeeze false s).
Proof.
  rewrite <- replace_spaces_squeeze. apply NoTag_replace.
  - apply proper_plus.
  - intros t. rewrite re_match_spaces. reflexivity.
  - intros [H|[]]. discriminate.
  - intros [H|[]]. discriminate.
Qed.

Lemma collapse_clean s : NoTag s -> Clean (collapse s).
Proof.
  intros H. unfold collapse. rewrite replace_spaces_squeeze. split.
  - apply NoTag_trim, NoTag_squeeze, H.
  - apply collapsedb_trim, collapsedb_squeeze.
  - apply trim_trimmed.
Qed.

Lemma collapsed_text_clean s : Clean (collapsed_text s).
Proof. apply collapse_clean. apply NoTag_strip_tags. Qed.

Lemma truncate_clean c : Clean c -> Clean (truncate c).
Proof.
  intros [Hn Hc Ht]. unfold truncate.
  destruct (220 <? length c); [|split; assumption]. split.
  - apply NoTag_snoc; [discriminate|]. apply NoTag_trim, NoTag_firstn, Hn.
  - apply collapsedb_snoc; [reflexivity|]. apply collapsedb_trim.
    rewrite <- (firstn_skipn 217 c) in Hc. apply collapsedb_app in Hc. tauto.
  - pose proof (trim_trimmed (firstn 217 c)) as Hx.
    generalize dependent (trim (firstn 217 c)). intros x Hx.
    unfold trimmedb. rewrite rev_unit. simpl. rewrite andb_true_r.
    destruct x as [|x t]; [reflexivity|].
    unfold trimmedb in Hx. apply andb_true_iff in Hx. tauto.
Qed.

Lemma truncate_length c :
  length (truncate c) <= 220 /\
  (220 < length c -> length (truncate c) <= 218).
Proof.
  unfold truncate. destruct (220 <? length c) eqn:E.
  - assert (length (trim (firstn 217 c) ++ [c_ellipsis]) <= 218).
    { rewrite length_app.
      pose proof (length_trim (firstn 217 c)) as H1.
      rewrite length_firstn in H1. cbn [length]. lia. }
    split; [lia|intros _; assumption].
  - apply Nat.ltb_ge in E. split; lia.
Qed.

Lemma truncate_nonempty c : c <> [] -> truncate c <> [].
Proof.
  unfold truncate. intros H. destruct (220 <? length c); [|exact H].
  intros E. apply app_eq_nil in E. destruct E. discriminate.
Qed.

Arguments collapsed_text : simpl never.
Arguments truncate : simpl never.

(** The shape of every successful call. *)
Lemma cleanSnippet_Some s r :
  cleanSnippet s = Some r <->
  exists s0, s = Some s0 /\ s0 <> [] /\ collapsed_text s0 <> [] /\
             r = truncate (collapsed_text s0).
Proof.
  unfold cleanSnippet. split.
  - destruct s as [[|c t]|]; [intros H; discriminate H| |intros H; discriminate H].
    destruct (collapsed_text (c :: t)) as [|x y] eqn:E;
      [intros H; discriminate H|].
    intros H. injection H as <-. exists (c :: t).
    rewrite E. repeat split; intros H; discriminate H.
  - intros (s0 & -> & Hs & Hc & ->).
    destruct s0 as [|c t]; [contradiction|].
    destruct (collapsed_text (c :: t)) as [|x y]; [contradiction|reflexivity].
Qed.

Lemma cleanSnippet_clean s r : cleanSnippet s = Some r -> Clean r /\ r <> [].
Proof.
  intros H. apply cleanSnippet_Some in H.
  destruct H as (s0 & _ & _ & Hc & ->). split.
  - apply truncate_clean, collapsed_text_clean.
  - apply truncate_nonempty, Hc.
Qed.

(* ================================================================= *)
(** ** Entity decoding: [split] and [join] as a replacement *)

Lemma is_prefix_length sep s : is_prefix sep s = true -> length sep <= length s.
Proof.
  revert s. induction sep as [|x sep IH]; intros s H; simpl; [lia|].
  destruct s as [|y s]; simpl in H; [discriminate|].
  apply andb_true_iff in H. destruct H as [_ H]. apply IH in H. simpl. lia.
Qed.

Lemma is_prefix_app sep t : is_prefix sep (sep ++ t) = true.
Proof.
  induction sep as [|x sep IH]; simpl; [reflexivity|].
  rewrite IH, (proj2 (char_eqb_eq x x) eq_refl). reflexivity.
Qed.

Lemma lit_match_proper sep : sep <> [] -> proper (lit_match sep).
Proof.
  intros Hsep s n H. unfold lit_match in H.
  destruct (is_prefix sep s) eqn:E; [|discriminate].
  inversion H; subst. apply is_prefix_length in E.
  destruct sep; [congruence|]. simpl in *. lia.
Qed.

Lemma split_go_nonempty sep k s : split_go sep k s <> [].
Proof.
  revert k. induction s as [|c t IH]; intros k; simpl; [discriminate|].
  destruct k; [|apply IH].
  destruct (is_prefix sep (c :: t)); [discriminate|].
  destruct (split_go sep 0 t); discriminate.
Qed.

Lemma join_cons v p rest :
  rest <> [] -> join v (p :: rest) = p ++ v ++ join v rest.
Proof. destruct rest; [congruence|reflexivity]. Qed.

(** [s.split(sep).join(v)] replaces the occurrences of [sep] found from
    left to right. *)
Lemma join_split_go sep v :
  sep <> [] ->
  forall s k, join v (split_go sep k s) = replace_go (lit_match sep) v k s.
Proof.
  intros Hsep.
  assert (Hnil : lit_match sep [] = None).
  { unfold lit_match. destruct sep; [congruence|reflexivity]. }
  induction s as [|c t IH]; intros k.
  - simpl. rewrite Hnil. destruct k; reflexivity.
  - destruct k as [|k]; [|apply IH]. cbn [split_go replace_go].
    unfold lit_match at 1.
    destruct (is_prefix sep (c :: t)) eqn:E.
    + rewrite join_cons by apply split_go_nonempty. simpl app.
      destruct sep as [|x sep']; [congruence|]. cbn [length].
      rewrite Nat.sub_succ, Nat.sub_0_r, IH. reflexivity.
    + rewrite <- IH.
      pose proof (split_go_nonempty sep 0 t) as Hne.
      destruct (split_go sep 0 t) as [|h r]; [congruence|].
      destruct r; reflexivity.
Qed.

Lemma join_split sep v s :
  sep <> [] -> join v (split sep s) = replace_lit sep v s.
Proof. intros H. apply join_split_go. exact H. Qed.

Lemma replace_lit_miss sep v c t :
  sep <> [] -> is_prefix sep (c :: t) = false ->
  replace_lit sep v (c :: t) = c :: replace_lit sep v t.
Proof.
  intros Hsep H. apply replace_cons_none. unfold lit_match. rewrite H.
  reflexivity.
Qed.

Lemma replace_lit_hit sep v t :
  sep <> [] -> replace_lit sep v (sep ++ t) = v ++ replace_lit sep v t.
Proof.
  intros Hsep. destruct sep as [|x sep']; [congruence|].
  unfold replace_lit. simpl app.
  rewrite (replace_cons_some _ _ (lit_match_proper _ Hsep) x (sep' ++ t)
                             (length sep')).
  - rewrite skipn_app, skipn_all, Nat.sub_diag. reflexivity.
  - unfold lit_match.
    change (x :: sep' ++ t) with ((x :: sep') ++ t).
    rewrite (is_prefix_app (x :: sep') t). reflexivity.
Qed.

Lemma includes_false_tails s n :
  includes s n = false -> forall u v, s = u ++ v -> is_prefix n v = false.
Proof.
  induction s as [|c t IH]; intros H u v Huv.
  - symmetry in Huv. apply app_eq_nil in Huv. destruct Huv; subst.
    simpl in H. apply orb_false_iff in H. tauto.
  - simpl in H. apply orb_false_iff in H. destruct H as [H1 H2].
    destruct u as [|x u]; simpl in Huv.
    + subst v. exact H1.
    + inversion Huv; subst. apply (IH H2 u v). reflexivity.
Qed.

Lemma replace_lit_absent sep v s :
  sep <> [] -> includes s sep = false -> replace_lit sep v s = s.
Proof.
  intros Hsep H. apply replace_no_match.
  - apply lit_match_proper. exact Hsep.
  - intros u w Huw. unfold lit_match.
    rewrite (includes_false_tails _ _ H u w Huw). reflexivity.
Qed.

Lemma HTML_ENTITIES_nonempty ev : In ev HTML_ENTITIES -> fst ev <> [].
Proof.
  intros H. simpl in H.
  destruct H as [<-|[<-|[<-|[<-|[<-|[<-|[]]]]]]]; discriminate.
Qed.

Lemma decode_fold_id (l : list (jsstring * jsstring)) r :
  (forall ev, In ev l -> fst ev <> [] /\ includes r (fst ev) = false) ->
  fold_left (fun result ev => join (snd ev) (split (fst ev) result)) l r = r.
Proof.
  induction l as [|ev l IH]; intros H; [reflexivity|]. simpl.
  destruct (H ev (or_introl eq_refl)) as [Hne Hinc].
  rewrite join_split, replace_lit_absent by assumption.
  apply IH. intros ev' Hin. apply H. right. exact Hin.
Qed.

Lemma decode_entity_free r : has_entity r = false -> decode_entities r = r.
Proof.
  intros H. apply decode_fold_id. intros ev Hin. split.
  - apply HTML_ENTITIES_nonempty. exact Hin.
  - unfold has_entity in H.
    destruct (includes r (fst ev)) eqn:E; [|reflexivity].
    rewrite <- H. symmetry. apply existsb_exists. exists ev. auto.
Qed.

(* ================================================================= *)
(** ** Clean texts are fixed points *)

Lemma replace_markup_id r rep s :
  In r markup_patterns -> NoTag s -> replace r rep s = s.
Proof.
  intros Hin Hno. apply replace_no_match.
  - apply markup_pattern_proper. exact Hin.
  - intros u v Huv. destruct (re_match r v) as [n|] eqn:E; [|reflexivity].
    apply (markup_match_tag r v n Hin) in E.
    rewrite (Hno u v Huv) in E. discriminate.
Qed.

Lemma strip_markup_id s : NoTag s -> strip_markup s = s.
Proof.
  intros H. unfold strip_markup.
  assert (Hin : forall r, In r markup_patterns -> forall rep, replace r rep s = s).
  { intros r Hr rep. apply replace_markup_id; assumption. }
  rewrite (Hin re_br), (Hin re_li), (Hin re_strong), (Hin re_em),
    (Hin re_p), (Hin re_ul), (Hin re_tag); unfold markup_patterns;
    auto 10 using in_eq, in_cons.
Qed.

Lemma collapse_id s :
  collapsedb s = true -> trimmedb s = true -> collapse s = s.
Proof.
  intros Hc Ht. unfold collapse.
  rewrite replace_spaces_squeeze, squeeze_id, trim_id; auto.
Qed.

Lemma truncate_id s : length s <= 220 -> truncate s = s.
Proof.
  intros H. unfold truncate.
  destruct (220 <? length s) eqn:E; [|reflexivity].
  apply Nat.ltb_lt in E. lia.
Qed.

Lemma clean_fixed r :
  Clean r -> r <> [] -> length r <= 220 -> has_entity r = false ->
  cleanSnippet (Some r) = Some r.
Proof.
  intros [Hn Hc Ht] Hne Hlen Hent. apply cleanSnippet_Some.
  exists r. unfold collapsed_text.
  rewrite (decode_entity_free _ Hent), (strip_markup_id _ Hn),
    (collapse_id _ Hc Ht), (truncate_id _ Hlen). auto.
Qed.

(* ================================================================= *)
(** ** Decoding explicit texts *)

Lemma decode_entities_unfold s :
  decode_entities s =
  replace_lit (lit "&#39;") (lit "'")
    (replace_lit (lit "&quot;") [34%N]
      (replace_lit (lit "&gt;") (lit ">")
        (replace_lit (lit "&lt;") (lit "<")
          (replace_lit (lit "&amp;") (lit "&")
            (replace_lit (lit "&nbsp;") (lit " ") s))))).
Proof.
  unfold decode_entities, HTML_ENTITIES. cbn [fold_left fst snd].
  rewrite !join_split by discriminate. reflexivity.
Qed.

Lemma is_prefix_first_ne x sep c t :
  x <> c -> is_prefix (x :: sep) (c :: t) = false.
Proof.
  intros H. simpl. destruct (char_eqb x c) eqn:E; [|reflexivity].
  apply char_eqb_eq in E. contradiction.
Qed.

(** A text without [&] contains no entity. *)
Lemma replace_lit_amp_free sep v s :
  ~ In c_amp s -> replace_lit (c_amp :: sep) v s = s.
Proof.
  intros H. apply replace_no_match.
  - apply lit_match_proper. discriminate.
  - intros u w ->. unfold lit_match. destruct w as [|c w]; [reflexivity|].
    rewrite is_prefix_first_ne; [reflexivity|].
    intros <-. apply H. apply in_or_app. right. left. reflexivity.
Qed.

Lemma decode_amp_free s : ~ In c_amp s -> decode_entities s = s.
Proof.
  intros H. rewrite decode_entities_unfold.
  change (lit "&nbsp;") with (c_amp :: lit "nbsp;").
  change (lit "&amp;") with (c_amp :: lit "amp;").
  change (lit "&lt;") with (c_amp :: lit "lt;").
  change (lit "&gt;") with (c_amp :: lit "gt;").
  change (lit "&quot;") with (c_amp :: lit "quot;").
  change (lit "&#39;") with (c_amp :: lit "#39;").
  repeat rewrite (replace_lit_amp_free _ _ s H). reflexivity.
Qed.

Lemma encode_cons lt gt c t :
  encode lt gt (c :: t) = encode_char lt gt c ++ encode lt gt t.
Proof. reflexivity. Qed.

Lemma char_eqb_neq a b : a <> b -> char_eqb a b = false.
Proof. apply N.eqb_neq. Qed.

Ltac miss :=
  rewrite replace_lit_miss;
  [|discriminate
   |first [reflexivity
          |apply is_prefix_first_ne; assumption
          |simpl; repeat
             match goal with
             | H : ?a <> ?b |- context [char_eqb ?a ?b] =>
               rewrite (char_eqb_neq a b H)
             end; reflexivity]].

(** An entity other than [&lt;] and [&gt;] does not occur in an encoded
    text. *)
Lemma replace_lit_encode_other x sep v lt gt s :
  ~ In c_amp s -> x <> 108%N -> x <> 103%N ->
  replace_lit (c_amp :: x :: sep) v (encode lt gt s) = encode lt gt s.
Proof.
  intros Hs Hl Hg. induction s as [|c t IH]; [reflexivity|].
  assert (Hc : c_amp <> c) by (intros <-; apply Hs; left; reflexivity).
  assert (Ht : ~ In c_amp t) by (intros Hx; apply Hs; right; exact Hx).
  specialize (IH Ht). rewrite encode_cons. unfold encode_char.
  destruct (lt && char_eqb c c_lt); [|destruct (gt && char_eqb c c_gt)].
  - change (lit "&lt;") with [38; 108; 116; 59]%N. cbn [app].
    do 4 miss. rewrite IH. reflexivity.
  - change (lit "&gt;") with [38; 103; 116; 59]%N. cbn [app].
    do 4 miss. rewrite IH. reflexivity.
  - cbn [app]. miss. rewrite IH. reflexivity.
Qed.

Lemma replace_lit_encode_lt gt s :
  ~ In c_amp s ->
  replace_lit (lit "&lt;") (lit "<") (encode true gt s) = encode false gt s.
Proof.
  intros Hs. induction s as [|c t IH]; [reflexivity|].
  assert (Hc : c_amp <> c) by (intros <-; apply Hs; left; reflexivity).
  assert (Ht : ~ In c_amp t) by (intros Hx; apply Hs; right; exact Hx).
  specialize (IH Ht). rewrite !encode_cons. unfold encode_char.
  destruct (char_eqb c c_lt) eqn:E; cbn [andb].
  - apply char_eqb_eq in E. subst c.
    rewrite replace_lit_hit by discriminate. rewrite IH.
    destruct gt; reflexivity.
  - destruct (gt && char_eqb c c_gt).
    + change (lit "&gt;") with [38; 103; 116; 59]%N. cbn [app].
      change (lit "&lt;") with [38; 108; 116; 59]%N in *.
      do 4 miss. rewrite IH. reflexivity.
    + cbn [app]. change (lit "&lt;") with [38; 108; 116; 59]%N in *.
      miss. rewrite IH. reflexivity.
Qed.

Lemma replace_lit_encode_gt s :
  ~ In c_amp s ->
  replace_lit (lit "&gt;") (lit ">") (encode false true s) = s.
Proof.
  intros Hs. induction s as [|c t IH]; [reflexivity|].
  assert (Hc : c_amp <> c) by (intros <-; apply Hs; left; reflexivity).
  assert (Ht : ~ In c_amp t) by (intros Hx; apply Hs; right; exact Hx).
  specialize (IH Ht). rewrite !encode_cons. unfold encode_char.
  cbn [andb]. destruct (char_eqb c c_gt) eqn:E.
  - apply char_eqb_eq in E. subst c.
    rewrite replace_lit_hit by discriminate. rewrite IH. reflexivity.
  - cbn [app]. change (lit "&gt;") with [38; 103; 116; 59]%N in *.
    miss. rewrite IH. reflexivity.
Qed.

(** Decoding undoes the encoding of the angle brackets. *)
Lemma decode_encode_angle s :
  ~ In c_amp s -> decode_entities (encode_angle s) = s.
Proof.
  intros H. rewrite decode_entities_unfold. unfold encode_angle.
  change (lit "&nbsp;") with (c_amp :: 110%N :: lit "bsp;").
  change (lit "&amp;") with (c_amp :: 97%N :: lit "mp;").
  repeat rewrite (replace_lit_encode_other _ _ _ true true s H)
    by discriminate.
  rewrite (replace_lit_encode_lt true s H), (replace_lit_encode_gt s H).
  change (lit "&quot;") with (c_amp :: lit "quot;").
  change (lit "&#39;") with (c_amp :: lit "#39;").
  repeat rewrite (replace_lit_amp_free _ _ s H). reflexivity.
Qed.

Lemma encode_angle_nil s : encode_angle s = [] <-> s = [].
Proof.
  split; [|intros ->; reflexivity].
  destruct s as [|c t]; [reflexivity|]. unfold encode_angle.
  rewrite encode_cons. unfold encode_char.
  destruct (true && char_eqb c c_lt);
    [|destruct (true && char_eqb c c_gt)]; discriminate.
Qed.

Lemma NoTag_no_lt s : ~ In c_lt s -> NoTag s.
Proof.
  intros H u v ->. destruct v as [|c t]; [reflexivity|].
  destruct (tagb (c :: t)) eqn:E; [|reflexivity].
  apply tagb_first in E. subst c. exfalso. apply H.
  apply in_or_app. right. left. reflexivity.
Qed.

Lemma collapsed_text_plain s :
  ~ In c_lt s -> ~ In c_amp s -> collapsed_text s = collapse s.
Proof.
  intros Hlt Hamp. unfold collapsed_text.
  rewrite (decode_amp_free _ Hamp), (strip_markup_id _ (NoTag_no_lt _ Hlt)).
  reflexivity.
Qed.

Lemma firstn_succ_nth {A} (d : A) n (l : list A) :
  n < length l -> firstn (S n) l = firstn n l ++ [nth n l d].
Proof.
  revert l. induction n as [|n IH]; intros [|x l] H; simpl in H; try lia.
  - reflexivity.
  - change (firstn (S (S n)) (x :: l)) with (x :: firstn (S n) l).
    rewrite IH by lia. reflexivity.
Qed.

Lemma collapsedb_before_ws a e :
  collapsedb (a ++ [e]) = true -> is_ws e = true -> starts_ok (rev a) = true.
Proof.
  intros H He. destruct a as [|y a'] using rev_ind; [reflexivity|].
  rewrite rev_unit. rewrite <- app_assoc in H.
  apply collapsedb_app in H. destruct H as [_ H]. simpl in H.
  rewrite He in H. simpl. destruct (is_ws y); [|reflexivity].
  simpl in H. rewrite !andb_false_r in H. discriminate H.
Qed.

Lemma trimEnd_snoc_ws a e :
  is_ws e = true -> starts_ok (rev a) = true -> trimEnd (a ++ [e]) = a.
Proof.
  intros He Ha. unfold trimEnd. rewrite rev_unit. simpl. rewrite He.
  rewrite (dropWhile_id _ Ha). apply rev_involutive.
Qed.

Lemma starts_ok_firstn n s :
  starts_ok s = true -> starts_ok (firstn (S n) s) = true.
Proof. destruct s; simpl; auto. Qed.

(** The kept prefix loses at most its last character to [trim]. *)
Lemma length_trim_prefix c n :
  Clean c -> n < length c ->
  length (trim (firstn (S n) c)) =
  if is_ws (nth n c 0%N) then n else S n.
Proof.
  intros [Hn Hc Ht] Hlen.
  assert (Hs : starts_ok (firstn (S n) c) = true).
  { apply starts_ok_firstn. unfold trimmedb in Ht.
    apply andb_true_iff in Ht. tauto. }
  assert (Hcol : collapsedb (firstn (S n) c) = true).
  { rewrite <- (firstn_skipn (S n) c) in Hc. apply collapsedb_app in Hc.
    tauto. }
  rewrite (@firstn_succ_nth char 0%N) in * by exact Hlen.
  assert (Hl : length (firstn n c) = n).
  { rewrite length_firstn. lia. }
  destruct (is_ws (nth n c 0%N)) eqn:E.
  - unfold trim, trimStart. rewrite (dropWhile_id _ Hs).
    rewrite trimEnd_snoc_ws; [exact Hl|exact E|].
    apply (collapsedb_before_ws _ _ Hcol E).
  - rewrite trim_id.
    + rewrite length_app, Hl. simpl. lia.
    + unfold trimmedb. rewrite Hs, rev_unit. simpl. rewrite E. reflexivity.
Qed.

Lemma no_ws_collapsedb s : no_ws s = true -> collapsedb s = true.
Proof.
  induction s as [|c t IH]; [reflexivity|]. simpl. intros H.
  apply andb_true_iff in H. destruct H as [Hc Ht].
  rewrite Hc, (IH Ht). reflexivity.
Qed.

Lemma no_ws_starts_ok s : no_ws s = true -> starts_ok s = true.
Proof.
  destruct s as [|c t]; [reflexivity|]. simpl. intros H.
  apply andb_true_iff in H. tauto.
Qed.

Lemma no_ws_rev s : no_ws s = true -> no_ws (rev s) = true.
Proof.
  unfold no_ws. rewrite !forallb_forall. intros H x Hx. apply H.
  apply in_rev. exact Hx.
Qed.

Lemma no_ws_trimmedb s : no_ws s = true -> trimmedb s = true.
Proof.
  intros H. unfold trimmedb.
  rewrite (no_ws_starts_ok _ H), (no_ws_starts_ok _ (no_ws_rev _ H)).
  reflexivity.
Qed.

Lemma no_ws_firstn n s : no_ws s = true -> no_ws (firstn n s) = true.
Proof.
  unfold no_ws. rewrite !forallb_forall. intros H x Hx. apply H.
  rewrite <- (firstn_skipn n s). apply in_or_app. left. exact Hx.
Qed.

Lemma collapse_no_ws s : no_ws s = true -> collapse s = s.
Proof.
  intros H. apply collapse_id.
  - apply no_ws_collapsedb, H.
  - apply no_ws_trimmedb, H.
Qed.

(* ================================================================= *)
(** ** Sorting *)

Section SortFacts.
Context {A : Type} (cmp : A -> A -> Z).

Local Abbreviation le := (fun x y => (cmp x y <= 0)%Z).

Lemma insert_perm x l : Permutation (insert cmp x l) (x :: l).
Proof.
  induction l as [|y l IH]; simpl; [apply Permutation_refl|].
  destruct (0 <? cmp x y)%Z; [|apply Permutation_refl].
  apply perm_trans with (y :: x :: l); [|apply perm_swap].
  apply perm_skip. exact IH.
Qed.

Lemma Array_sort_perm l : Permutation (Array_sort cmp l) l.
Proof.
  induction l as [|x l IH]; simpl; [apply perm_nil|].
  apply perm_trans with (x :: Array_sort cmp l); [apply insert_perm|].
  apply perm_skip. exact IH.
Qed.

(** Elements of a class on which [cmp] never reports "greater" keep
    their order. *)
Lemma insert_stable (f : A -> bool) x l :
  (forall a b, f a = true -> f b = true -> (cmp a b <= 0)%Z) ->
  filter f (insert cmp x l) = filter f (x :: l).
Proof.
  intros Hf. induction l as [|y l IH]; [reflexivity|].
  cbn [insert]. destruct (0 <? cmp x y)%Z eqn:E; [|reflexivity].
  apply Z.ltb_lt in E. cbn [filter] in *. rewrite IH.
  destruct (f x) eqn:Ex, (f y) eqn:Ey; try reflexivity.
  specialize (Hf x y Ex Ey). lia.
Qed.

Lemma Array_sort_stable (f : A -> bool) l :
  (forall a b, f a = true -> f b = true -> (cmp a b <= 0)%Z) ->
  filter f (Array_sort cmp l) = filter f l.
Proof.
  intros Hf. induction l as [|x l IH]; [reflexivity|].
  cbn [Array_sort]. rewrite insert_stable by exact Hf.
  cbn [filter]. rewrite IH. reflexivity.
Qed.

(** A comparison function that is consistent on the elements [Q] of the
    array. *)
Variable Q : A -> Prop.
Hypothesis cmp_anti : forall x y, (0 < cmp x y -> cmp y x <= 0)%Z.
Hypothesis cmp_trans :
  forall x y z, Q x -> Q y -> Q z ->
                (cmp x y <= 0 -> cmp y z <= 0 -> cmp x z <= 0)%Z.

Lemma insert_sorted x l :
  Q x -> Forall Q l ->
  StronglySorted le l -> StronglySorted le (insert cmp x l).
Proof.
  intros Qx Ql Hs. induction Hs as [|y l Hs IH Hall]; simpl.
  - constructor; constructor.
  - inversion Ql as [|? ? Qy Ql']; subst.
    destruct (0 <? cmp x y)%Z eqn:E.
    + apply Z.ltb_lt in E. constructor; [apply IH; exact Ql'|].
      apply (Permutation_Forall (Permutation_sym (insert_perm x l))).
      constructor; [apply cmp_anti; exact E|exact Hall].
    + apply Z.ltb_ge in E. constructor.
      * constructor; assumption.
      * constructor; [exact E|].
        rewrite Forall_forall in *. intros z Hz.
        apply (cmp_trans x y z); auto.
Qed.

Lemma Array_sort_sorted l :
  Forall Q l -> StronglySorted le (Array_sort cmp l).
Proof.
  induction l as [|x l IH]; simpl; intros Ql; [constructor|].
  inversion Ql as [|? ? Qx Ql']; subst.
  apply insert_sorted; [exact Qx| |apply IH; exact Ql'].
  apply (Permutation_Forall (Permutation_sym (Array_sort_perm l))).
  exact Ql'.
Qed.
End SortFacts.

Lemma StronglySorted_impl {A} (R R' : A -> A -> Prop) l :
  (forall x y, In x l -> In y l -> R x y -> R' x y) ->
  StronglySorted R l -> StronglySorted R' l.
Proof.
  intros H Hs. induction Hs as [|x l Hs IH Hall]; constructor.
  - apply IH. intros a b Ha Hb. apply H; right; assumption.
  - rewrite Forall_forall in *. intros y Hy.
    apply H; [left; reflexivity|right; exact Hy|]. apply Hall. exact Hy.
Qed.

Lemma StronglySorted_NoDup {A} (R : A -> A -> Prop) l :
  StronglySorted R l -> NoDup l ->
  StronglySorted (fun x y => R x y /\ x <> y) l.
Proof.
  intros Hs Hn. induction Hs as [|x l Hs IH Hall]; constructor.
  - apply IH. inversion Hn. assumption.
  - inversion Hn as [|? ? Hx Hl]; subst.
    rewrite Forall_forall in *. intros y Hy. split; [apply Hall; exact Hy|].
    intros ->. contradiction.
Qed.

(* ================================================================= *)
(** ** The order of the code units *)

Lemma str_eqb_eq a b : str_eqb a b = true <-> a = b.
Proof.
  revert b. induction a as [|x a IH]; intros [|y b]; simpl;
    try (split; [discriminate|congruence]); [tauto|].
  rewrite andb_true_iff, char_eqb_eq, IH. split.
  - intros [-> ->]. reflexivity.
  - intros H. inversion H. auto.
Qed.

Lemma str_eqb_refl a : str_eqb a a = true.
Proof. apply str_eqb_eq. reflexivity. Qed.

Lemma str_eqb_neq a b : str_eqb a b = false <-> a <> b.
Proof.
  split.
  - intros H E. apply str_eqb_eq in E. congruence.
  - intros H. destruct (str_eqb a b) eqn:E; [|reflexivity].
    apply str_eqb_eq in E. contradiction.
Qed.

Lemma str_ltb_irrefl a : str_ltb a a = false.
Proof.
  induction a as [|x a IH]; [reflexivity|]. simpl.
  rewrite N.ltb_irrefl, N.eqb_refl, IH. reflexivity.
Qed.

Lemma str_ltb_trans a b c :
  str_ltb a b = true -> str_ltb b c = true -> str_ltb a c = true.
Proof.
  revert b c. induction a as [|x a IH]; intros [|y b] [|z c]; simpl;
    try discriminate; try reflexivity.
  rewrite !orb_true_iff, !andb_true_iff, !N.ltb_lt, !N.eqb_eq.
  intros [H1|[H1 H1']] [H2|[H2 H2']].
  - left. lia.
  - left. lia.
  - left. lia.
  - right. split; [lia|]. apply (IH b c); assumption.
Qed.

Lemma str_ltb_total a b :
  str_ltb a b = false -> str_ltb b a = false -> a = b.
Proof.
  revert b. induction a as [|x a IH]; intros [|y b]; simpl;
    try discriminate; [reflexivity|].
  rewrite !orb_false_iff, !andb_false_iff, !N.ltb_ge, !N.eqb_neq.
  intros [H1 H1'] [H2 H2'].
  assert (x = y) by lia. subst y. f_equal.
  apply IH; [destruct H1'|destruct H2']; congruence.
Qed.

Lemma str_ltb_asym a b : str_ltb a b = true -> str_ltb b a = false.
Proof.
  intros H. destruct (str_ltb b a) eqn:E; [|reflexivity].
  rewrite <- (str_ltb_irrefl a). symmetry.
  apply (str_ltb_trans a b a); assumption.
Qed.

Lemma default_compare_refl a : default_compare a a = 0%Z.
Proof. unfold default_compare. rewrite str_ltb_irrefl. reflexivity. Qed.

Lemma default_compare_zero a b : default_compare a b = 0%Z -> a = b.
Proof.
  unfold default_compare.
  destruct (str_ltb a b) eqn:E1; [discriminate|].
  destruct (str_ltb b a) eqn:E2; [discriminate|].
  intros _. apply str_ltb_total; assumption.
Qed.

Lemma default_compare_le a b :
  (default_compare a b <= 0)%Z <-> str_ltb b a = false.
Proof.
  unfold default_compare.
  destruct (str_ltb a b) eqn:E1.
  - rewrite (str_ltb_asym _ _ E1). split; [reflexivity|lia].
  - destruct (str_ltb b a); split; (lia || congruence).
Qed.

Lemma default_compare_anti a b :
  (0 < default_compare a b <-> default_compare b a < 0)%Z.
Proof.
  unfold default_compare.
  destruct (str_ltb a b) eqn:E1.
  - rewrite (str_ltb_asym _ _ E1). lia.
  - destruct (str_ltb b a) eqn:E2; lia.
Qed.

Lemma default_compare_trans a b c :
  (default_compare a b <= 0 -> default_compare b c <= 0 ->
   default_compare a c <= 0)%Z.
Proof.
  rewrite !default_compare_le. intros H1 H2.
  destruct (str_ltb c a) eqn:E; [|reflexivity].
  destruct (str_ltb a b) eqn:E1.
  - rewrite (str_ltb_trans c a b E E1) in H2. discriminate.
  - rewrite (str_ltb_total a b E1 H1) in E. congruence.
Qed.

(* ================================================================= *)
(** ** The order of the jobs *)

Lemma visa_eqb_eq a b : visa_eqb a b = true <-> a = b.
Proof. destruct a, b; simpl; split; congruence. Qed.

Lemma default_compare_collation : Collation default_compare.
Proof.
  split.
  - apply default_compare_refl.
  - apply default_compare_anti.
  - apply default_compare_trans.
Qed.

Section JobOrder.
Variable lc : jsstring -> jsstring -> Z.
Hypothesis Hlc : Collation lc.

Lemma compareJobs_job_le a b :
  separates lc (country a) (country b) ->
  (compareJobs lc a b <= 0)%Z -> job_le lc a b.
Proof.
  intros Hsep. unfold compareJobs, job_le.
  destruct (visaStatus a) eqn:Va, (visaStatus b) eqn:Vb; simpl;
    try lia; try (left; lia).
  all: destruct (str_eqb (country a) (country b)) eqn:E; simpl; intros H;
    right; (split; [reflexivity|]).
  all: first
    [ apply str_eqb_eq in E; right; split; assumption
    | apply str_eqb_neq in E; left;
      destruct (Z.eq_dec (lc (country a) (country b)) 0) as [Hz|Hz];
      [apply Hsep in Hz; contradiction|lia] ].
Qed.

Lemma compareJobs_anti a b :
  (0 < compareJobs lc a b -> compareJobs lc b a <= 0)%Z.
Proof.
  unfold compareJobs.
  destruct (visaStatus a) eqn:Va, (visaStatus b) eqn:Vb; simpl; try lia.
  all: destruct (str_eqb (country a) (country b)) eqn:E; simpl.
  all: try (apply str_eqb_eq in E; rewrite E, str_eqb_refl; simpl;
            intros H; apply (lc_anti _ Hlc) in H; lia).
  all: assert (E' : str_eqb (country b) (country a) = false)
    by (apply str_eqb_neq; apply str_eqb_neq in E; congruence);
    rewrite E'; simpl; intros H; apply (lc_anti _ Hlc) in H; lia.
Qed.

Lemma lc_antisym a b :
  separates lc a b -> (lc a b <= 0)%Z -> (lc b a <= 0)%Z -> a = b.
Proof.
  intros Hsep H1 H2. destruct (Z.eq_dec (lc a b) 0) as [Hz|Hz].
  - apply Hsep. exact Hz.
  - pose proof (proj2 (lc_anti _ Hlc b a)). lia.
Qed.

Lemma keys_trans ca pa cb pb cc pc :
  separates lc ca cb ->
  ((if negb (str_eqb ca cb) then lc ca cb else lc pa pb) <= 0 ->
   (if negb (str_eqb cb cc) then lc cb cc else lc pb pc) <= 0 ->
   (if negb (str_eqb ca cc) then lc ca cc else lc pa pc) <= 0)%Z.
Proof.
  intros Hsep.
  destruct (str_eqb ca cb) eqn:Eab; destruct (str_eqb cb cc) eqn:Ebc;
    simpl.
  - apply str_eqb_eq in Eab, Ebc. subst. rewrite str_eqb_refl. simpl.
    apply (lc_trans _ Hlc).
  - apply str_eqb_eq in Eab. subst. rewrite Ebc. simpl. auto.
  - apply str_eqb_eq in Ebc. subst. rewrite Eab. simpl. auto.
  - apply str_eqb_neq in Eab, Ebc.
    destruct (str_eqb ca cc) eqn:Eac; simpl.
    + apply str_eqb_eq in Eac. subst. intros H1 H2. exfalso. apply Eab.
      apply lc_antisym; assumption.
    + apply (lc_trans _ Hlc).
Qed.

Lemma compareJobs_trans a b c :
  separates lc (country a) (country b) ->
  (compareJobs lc a b <= 0 -> compareJobs lc b c <= 0 ->
   compareJobs lc a c <= 0)%Z.
Proof.
  intros Hsep. unfold compareJobs.
  destruct (visaStatus a), (visaStatus b), (visaStatus c); simpl; try lia.
  all: apply keys_trans; exact Hsep.
Qed.

Lemma compareJobs_same_keys k a b :
  same_keys k a = true -> same_keys k b = true ->
  (compareJobs lc a b <= 0)%Z.
Proof.
  unfold same_keys. rewrite !andb_true_iff, !visa_eqb_eq, !str_eqb_eq.
  intros [[Va Ca] Pa] [[Vb Cb] Pb]. unfold compareJobs.
  rewrite Va, Vb, Ca, Cb, Pa, Pb, str_eqb_refl.
  rewrite (proj2 (visa_eqb_eq _ _) eq_refl). simpl.
  rewrite (lc_refl _ Hlc). lia.
Qed.
End JobOrder.

(* ================================================================= *)
(** ** Sets of strings, substrings *)

Lemma existsb_str_eqb x s : existsb (str_eqb x) s = true <-> In x s.
Proof.
  rewrite existsb_exists. split.
  - intros (y & Hy & E). apply str_eqb_eq in E. subst. exact Hy.
  - intros H. exists x. split; [exact H|apply str_eqb_refl].
Qed.

Lemma Set_add_In s x y : In y (Set_add s x) <-> In y s \/ y = x.
Proof.
  unfold Set_add. destruct (existsb (str_eqb x) s) eqn:E.
  - apply existsb_str_eqb in E. split; [auto|].
    intros [H| ->]; assumption.
  - rewrite in_app_iff. simpl. split; intros [H|H]; auto.
    + destruct H as [H|[]]. auto.
Qed.

Lemma Set_add_NoDup s x : NoDup s -> NoDup (Set_add s x).
Proof.
  intros H. unfold Set_add. destruct (existsb (str_eqb x) s) eqn:E;
    [exact H|].
  apply NoDup_app; [exact H|repeat constructor; intros []|].
  intros y Hy [<-|[]].
  apply existsb_str_eqb in Hy. congruence.
Qed.

Lemma fold_Set_add l acc :
  NoDup acc ->
  NoDup (fold_left Set_add l acc) /\
  forall y, In y (fold_left Set_add l acc) <-> In y acc \/ In y l.
Proof.
  revert acc. induction l as [|x l IH]; intros acc H; simpl.
  - split; [exact H|]. intros y. tauto.
  - destruct (IH (Set_add acc x) (Set_add_NoDup _ _ H)) as [Hn Hi].
    split; [exact Hn|]. intros y. rewrite Hi, Set_add_In.
    split; intros [[?|?]|?] || intros [?|[?|?]]; auto.
Qed.

Lemma Set_from_NoDup l : NoDup (Set_from l).
Proof. apply fold_Set_add. constructor. Qed.

Lemma Set_from_In l y : In y (Set_from l) <-> In y l.
Proof.
  unfold Set_from.
  destruct (fold_Set_add l [] (NoDup_nil _)) as [_ H]. rewrite H.
  simpl. tauto.
Qed.

Lemma is_prefix_spec p s : is_prefix p s = true <-> exists v, s = p ++ v.
Proof.
  revert s. induction p as [|x p IH]; intros s; simpl.
  - split; [exists s; reflexivity|reflexivity].
  - destruct s as [|y s].
    + split; [discriminate|]. intros (v & H). discriminate H.
    + rewrite andb_true_iff, char_eqb_eq, IH. split.
      * intros (-> & v & ->). exists v. reflexivity.
      * intros (v & H). inversion H; subst. split; [reflexivity|].
        exists v. reflexivity.
Qed.

(** [includes] decides the occurrence of a substring. *)
Lemma includes_spec h n :
  includes h n = true <-> exists u v, h = u ++ n ++ v.
Proof.
  induction h as [|c t IH].
  - simpl. rewrite orb_false_r, is_prefix_spec. split.
    + intros (v & H). exists [], v. exact H.
    + intros (u & v & H). symmetry in H. apply app_eq_nil in H.
      destruct H as [-> H]. exists v. symmetry. exact H.
  - cbn [includes]. rewrite orb_true_iff, is_prefix_spec, IH. split.
    + intros [(v & H)|(u & v & H)].
      * exists [], v. exact H.
      * exists (c :: u), v. rewrite H. reflexivity.
    + intros (u & v & H). destruct u as [|x u].
      * left. exists v. exact H.
      * right. inversion H; subst. exists u, v. reflexivity.
Qed.

(* ================================================================= *)
(** ** Groups of the explorer *)

Lemma count_status_filter v jobs :
  count_status v jobs = length (filter (fun j => visa_eqb (visaStatus j) v) jobs).
Proof.
  induction jobs as [|j rest IH]; [reflexivity|]. simpl.
  destruct (visaStatus j), v; simpl; rewrite IH; reflexivity.
Qed.

Lemma count_status_total jobs :
  count_status Mentioned jobs + count_status NotMentioned jobs = length jobs.
Proof.
  induction jobs as [|j rest IH]; [reflexivity|]. simpl.
  destruct (visaStatus j); lia.
Qed.

(* ================================================================= *)
(** * Properties of the sanitizer *)

Lemma cleanSnippet_congr s1 s2 :
  (s1 = [] <-> s2 = []) -> collapsed_text s1 = collapsed_text s2 ->
  cleanSnippet (Some s1) = cleanSnippet (Some s2).
Proof.
  intros Hnil Hc. destruct s1 as [|c1 t1], s2 as [|c2 t2].
  - reflexivity.
  - destruct Hnil as [Hn _]. specialize (Hn eq_refl). discriminate Hn.
  - destruct Hnil as [_ Hn]. specialize (Hn eq_refl). discriminate Hn.
  - unfold cleanSnippet. rewrite Hc. reflexivity.
Qed.

Lemma notin_b c s : existsb (char_eqb c) s = false -> ~ In c s.
Proof.
  intros H Hin.
  assert (E : existsb (char_eqb c) s = true).
  { apply existsb_exists. exists c. split; [exact Hin|].
    apply char_eqb_eq. reflexivity. }
  congruence.
Qed.

(** C1, as stated, fails: in ["a&lt;br&gt;b"] the tag occurs only in encoded
    form, it is decoded to [<br>] by the entity loop and then replaced by a
    space by the line-break rule. *)
Lemma encoded_br_is_replaced :
  ~ encoded_markup_kept (lit "a&lt;br&gt;b") /\
  decode_entities (lit "a&lt;br&gt;b") = lit "a<br>b" /\
  cleanSnippet (Some (lit "a&lt;br&gt;b")) = Some (lit "a b").
Proof.
  split; [|split; vm_compute; reflexivity].
  intros H. assert (Hlt : ~ In c_lt (lit "a&lt;br&gt;b")).
  { apply notin_b. vm_compute. reflexivity. }
  specialize (H Hlt). vm_compute in H. discriminate H.
Qed.

(** C1 (amended): the entities are decoded first and the structural rules
    run on the decoded text, so a tag written with [&lt;] and [&gt;] is
    treated exactly like the literal tag: for every text [s] without [&],
    decoding the text in which each [<] is written [&lt;] and each [>] is
    written [&gt;] gives [s] back, and sanitizing it gives the result of
    sanitizing [s]. *)
Theorem encoded_markup_is_structural (s : jsstring) :
  ~ In c_amp s ->
  decode_entities (encode_angle s) = s /\
  cleanSnippet (Some (encode_angle s)) = cleanSnippet (Some s).
Proof.
  intros H. pose proof (decode_encode_angle s H) as Hd.
  split; [exact Hd|].
  apply cleanSnippet_congr; [apply encode_angle_nil|].
  unfold collapsed_text. rewrite Hd, (decode_amp_free _ H). reflexivity.
Qed.

Lemma encoded_markup_is_structural_witness :
  ~ In c_amp (lit "a<br>b") /\
  decode_entities (encode_angle (lit "a<br>b")) = lit "a<br>b" /\
  cleanSnippet (Some (encode_angle (lit "a<br>b")))
  = cleanSnippet (Some (lit "a<br>b")).
Proof.
  assert (H : ~ In c_amp (lit "a<br>b")).
  { apply notin_b. vm_compute. reflexivity. }
  split; [exact H|]. apply (encoded_markup_is_structural _ H).
Defined.

(** C2, as stated, fails: ["&amp;amp;"] is sanitized to ["&amp;"], which is
    sanitized to ["&"]. *)
Lemma cleanSnippet_not_idempotent :
  cleanSnippet (Some (lit "&amp;amp;")) = Some (lit "&amp;") /\
  cleanSnippet (cleanSnippet (Some (lit "&amp;amp;")))
  <> cleanSnippet (Some (lit "&amp;amp;")).
Proof.
  split; [vm_compute; reflexivity|]. vm_compute. intros H. discriminate H.
Qed.

(** C2 (amended): sanitizing is idempotent on every input whose result
    contains none of the six entities of the table: absent maps to absent,
    and a produced text without entity is a fixed point of the sanitizer. *)
Theorem cleanSnippet_idempotent (s : option jsstring) :
  (forall r, cleanSnippet s = Some r -> has_entity r = false) ->
  cleanSnippet (cleanSnippet s) = cleanSnippet s.
Proof.
  intros H. destruct (cleanSnippet s) as [r|] eqn:E; [|reflexivity].
  destruct (cleanSnippet_clean _ _ E) as [Hc Hne].
  apply clean_fixed; [exact Hc|exact Hne| |apply H; reflexivity].
  apply cleanSnippet_Some in E. destruct E as (s0 & _ & _ & _ & ->).
  apply truncate_length.
Qed.

Lemma cleanSnippet_idempotent_witness :
  (forall r, cleanSnippet (Some fixture_snippet) = Some r ->
             has_entity r = false) /\
  cleanSnippet (cleanSnippet (Some fixture_snippet))
  = cleanSnippet (Some fixture_snippet).
Proof.
  assert (H : forall r, cleanSnippet (Some fixture_snippet) = Some r ->
                        has_entity r = false).
  { intros r Hr. vm_compute in Hr. injection Hr as <-. vm_compute.
    reflexivity. }
  split; [exact H|]. apply (cleanSnippet_idempotent _ H).
Defined.

(** C3, as stated, fails: a [<] or [>] that is not part of a tag is kept. *)
Lemma cleanSnippet_keeps_angle_brackets :
  ~ (forall s r, cleanSnippet (Some s) = Some r ->
                 ~ In c_lt r /\ ~ In c_gt r).
Proof.
  intros H.
  destruct (H (lit "b > a < c") (lit "b > a < c")) as [H1 _].
  - vm_compute. reflexivity.
  - apply H1. vm_compute. tauto.
Qed.

(** C3 (amended): a produced text contains no markup tag: at no position
    of the result does any of the structural patterns match, in particular
    not the generic pattern [<], one or more characters other than [>],
    [>].  (A [<] or [>] outside such a tag may remain.) *)
Theorem cleanSnippet_no_tag (s : option jsstring) (r : jsstring) :
  cleanSnippet s = Some r ->
  forall u v, r = u ++ v ->
    tagb v = false /\
    forall p, In p markup_patterns -> re_match p v = None.
Proof.
  intros H u v Huv. destruct (cleanSnippet_clean _ _ H) as [[Hn _ _] _].
  pose proof (Hn u v Huv) as Ht. split; [exact Ht|].
  intros p Hp. destruct (re_match p v) as [n|] eqn:E; [|reflexivity].
  apply (markup_match_tag p v n Hp) in E. congruence.
Qed.

Lemma cleanSnippet_no_tag_witness :
  tagb (lit "sponsored Apply now") = false /\
  forall p, In p markup_patterns ->
            re_match p (lit "sponsored Apply now") = None.
Proof.
  apply (cleanSnippet_no_tag (Some fixture_snippet)
           (lit "Relocation & visa sponsored Apply now")
           ltac:(vm_compute; reflexivity)
           (lit "Relocation & visa ") (lit "sponsored Apply now")).
  vm_compute. reflexivity.
Defined.

(** C4, as stated, fails: a plain text of 300 characters whose 217th
    character is a space loses that space to the [trim] of line 55, and the
    result has 217 characters. *)
Lemma plain_text_300_to_217 :
  ~ (forall s, length s = 300 -> ~ In c_lt s -> ~ In c_amp s ->
               exists r, cleanSnippet (Some s) = Some r /\ length r = 218).
Proof.
  intros H.
  destruct (H (repeat 97%N 216 ++ [c_space] ++ repeat 97%N 83))
    as (r & Hr & Hl).
  - vm_compute. reflexivity.
  - apply notin_b. vm_compute. reflexivity.
  - apply notin_b. vm_compute. reflexivity.
  - vm_compute in Hr. injection Hr as <-. vm_compute in Hl. discriminate Hl.
Qed.

(** C4 (amended): for a text [s] without markup and entities (no [<], no
    [&]) the text that reaches line 54 is [c = collapse s], and
    - truncation occurs exactly when [c] has more than 220 characters; the
      result is then the first 217 characters of [c], trimmed, followed by
      one ellipsis, and has 218 characters when the 217th character of [c]
      is not whitespace and 217 characters when it is;
    - otherwise a non-empty [c] is returned as it is;
    - in particular a text of 300 characters without whitespace yields its
      first 217 characters followed by the ellipsis: 218 characters. *)
Theorem truncation_of_plain_text (s : jsstring) :
  ~ In c_lt s -> ~ In c_amp s ->
  let c := collapse s in
  (220 < length c ->
     cleanSnippet (Some s) = Some (trim (firstn 217 c) ++ [c_ellipsis]) /\
     length (trim (firstn 217 c) ++ [c_ellipsis])
     = if is_ws (nth 216 c 0%N) then 217 else 218) /\
  (0 < length c <= 220 -> cleanSnippet (Some s) = Some c) /\
  (length s = 300 -> no_ws s = true ->
     cleanSnippet (Some s) = Some (firstn 217 s ++ [c_ellipsis]) /\
     length (firstn 217 s ++ [c_ellipsis]) = 218).
Proof.
  intros Hlt Hamp c.
  assert (Hc : collapsed_text s = c) by (apply collapsed_text_plain; assumption).
  assert (Hclean : Clean c) by (rewrite <- Hc; apply collapsed_text_clean).
  assert (Hlong : 220 < length c ->
     cleanSnippet (Some s) = Some (trim (firstn 217 c) ++ [c_ellipsis]) /\
     length (trim (firstn 217 c) ++ [c_ellipsis])
     = if is_ws (nth 216 c 0%N) then 217 else 218).
  { intros Hlen. split.
    - apply cleanSnippet_Some. exists s. rewrite Hc.
      repeat split.
      + intros ->. subst c. vm_compute in Hlen. lia.
      + intros E. rewrite E in Hlen. simpl in Hlen. lia.
      + unfold truncate. apply Nat.ltb_lt in Hlen. rewrite Hlen.
        reflexivity.
    - rewrite length_app.
      rewrite (length_trim_prefix c 216 Hclean) by lia.
      destruct (is_ws (nth 216 c 0%N)); reflexivity. }
  split; [exact Hlong|]. split.
  - intros [Hpos Hle]. apply cleanSnippet_Some. exists s. rewrite Hc.
    repeat split.
    + intros ->. subst c. vm_compute in Hpos. lia.
    + intros E. rewrite E in Hpos. simpl in Hpos. lia.
    + symmetry. apply truncate_id. exact Hle.
  - intros Hlen Hws.
    assert (Hcs : c = s) by (apply collapse_no_ws; exact Hws).
    rewrite Hcs in Hlong. destruct Hlong as [Hr _]; [lia|].
    rewrite (trim_id (firstn 217 s)) in Hr
      by (apply no_ws_trimmedb, no_ws_firstn, Hws).
    split; [exact Hr|]. rewrite length_app, length_firstn, Hlen.
    reflexivity.
Qed.

Lemma truncation_of_plain_text_witness :
  let s := repeat 97%N 300 in
  let c := collapse s in
  (220 < length c ->
     cleanSnippet (Some s) = Some (trim (firstn 217 c) ++ [c_ellipsis]) /\
     length (trim (firstn 217 c) ++ [c_ellipsis])
     = if is_ws (nth 216 c 0%N) then 217 else 218) /\
  (0 < length c <= 220 -> cleanSnippet (Some s) = Some c) /\
  (length s = 300 -> no_ws s = true ->
     cleanSnippet (Some s) = Some (firstn 217 s ++ [c_ellipsis]) /\
     length (firstn 217 s ++ [c_ellipsis]) = 218).
Proof.
  apply (truncation_of_plain_text (repeat 97%N 300)).
  - apply notin_b. vm_compute. reflexivity.
  - apply notin_b. vm_compute. reflexivity.
Defined.

(** C10: a produced text has at most 220 characters, the ellipsis
    included; when the text reaching line 54 has more than 220 characters,
    so that it is truncated, the result has at most 218. *)
Theorem cleanSnippet_length (s r : jsstring) :
  cleanSnippet (Some s) = Some r ->
  length r <= 220 /\
  (220 < length (collapsed_text s) -> length r <= 218) /\
  (r <> collapsed_text s -> length r <= 218).
Proof.
  intros H. apply cleanSnippet_Some in H.
  destruct H as (s0 & Hs & _ & _ & ->). injection Hs as <-.
  destruct (truncate_length (collapsed_text s)) as [H1 H2].
  split; [exact H1|]. split; [exact H2|].
  intros Hne. apply H2.
  destruct (Nat.ltb_spec 220 (length (collapsed_text s))) as [Hl|Hl];
    [exact Hl|].
  exfalso. apply Hne. apply truncate_id. exact Hl.
Qed.

Lemma cleanSnippet_length_witness :
  let s := repeat 97%N 300 in
  let r := repeat 97%N 217 ++ [c_ellipsis] in
  length r <= 220 /\
  (220 < length (collapsed_text s) -> length r <= 218) /\
  (r <> collapsed_text s -> length r <= 218).
Proof.
  apply (cleanSnippet_length (repeat 97%N 300)
                             (repeat 97%N 217 ++ [c_ellipsis])).
  vm_compute. reflexivity.
Defined.

(* ================================================================= *)
(** * Properties of the ordering, the statistics and the filters *)

Lemma StronglySorted_after {A} (R : A -> A -> Prop) pre a l :
  StronglySorted R (pre ++ a :: l) -> Forall (R a) l.
Proof.
  induction pre as [|x pre IH]; simpl; intros H; inversion H; subst; auto.
Qed.

(** The order of [getJobs] when the collation tells the countries apart:
    for a [localeCompare] that is a consistent comparison function
    and tells apart the different countries of the records, [getJobs]
    returns the normalized jobs, sorted by the three-key order - visa status
    with "Mentioned" before "Not mentioned", then country, then company -
    and the sort is stable: the jobs equal on the three keys appear in their
    input order. *)
Theorem getJobs_sorted_stable
        (localeCompare : jsstring -> jsstring -> Z)
        (rawJobs : list Raw.RawJob) :
  Collation localeCompare ->
  countries_separated localeCompare rawJobs ->
  let jobs := getJobs localeCompare rawJobs in
  Permutation jobs (List.map normalize rawJobs) /\
  StronglySorted (job_le localeCompare) jobs /\
  (forall pre a mid b post,
      jobs = pre ++ a :: mid ++ b :: post ->
      visaStatus b = Mentioned -> visaStatus a = Mentioned) /\
  (forall k, filter (same_keys k) jobs
             = filter (same_keys k) (List.map normalize rawJobs)).
Proof.
  intros Hlc Hdata jobs. unfold jobs, getJobs.
  set (mapped := List.map normalize rawJobs).
  assert (Hsep : forall x y, In x mapped -> In y mapped ->
                             separates localeCompare (country x) (country y)).
  { intros x y Hx Hy. apply in_map_iff in Hx, Hy.
    destruct Hx as (a & <- & Ha). destruct Hy as (b & <- & Hb).
    apply (Hdata a b Ha Hb). }
  assert (Hsorted : StronglySorted (job_le localeCompare)
            (Array_sort (compareJobs localeCompare) mapped)).
  { apply StronglySorted_impl
      with (R := fun x y => (compareJobs localeCompare x y <= 0)%Z).
    - intros x y Hx Hy. apply compareJobs_job_le. apply Hsep.
      + apply (Permutation_in _ (Array_sort_perm (compareJobs localeCompare) mapped)).
        exact Hx.
      + apply (Permutation_in _ (Array_sort_perm (compareJobs localeCompare) mapped)).
        exact Hy.
    - apply Array_sort_sorted with (Q := fun j => In j mapped).
      + apply compareJobs_anti. exact Hlc.
      + intros x y z Hx Hy _. apply compareJobs_trans; [exact Hlc|].
        apply Hsep; assumption.
      + apply Forall_forall. auto. }
  split; [apply Array_sort_perm|]. split; [exact Hsorted|]. split.
  - intros pre a mid b post Hj Hb. rewrite Hj in Hsorted.
    apply StronglySorted_after in Hsorted.
    rewrite Forall_forall in Hsorted.
    assert (Hab : job_le localeCompare a b).
    { apply Hsorted. apply in_or_app. right. left. reflexivity. }
    destruct Hab as [H|[H _]]; [|congruence].
    rewrite Hb in H. simpl in H. lia.
  - intros k. apply Array_sort_stable. intros a b.
    apply compareJobs_same_keys. exact Hlc.
Qed.

Example getJobs_sample :
  List.map link (getJobs default_compare sample_raw_jobs)
  = [lit "3"; lit "2"; lit "4"; lit "1"].
Proof. vm_compute. reflexivity. Qed.

Lemma getJobs_sorted_stable_witness :
  let jobs := getJobs default_compare sample_raw_jobs in
  Permutation jobs (List.map normalize sample_raw_jobs) /\
  StronglySorted (job_le default_compare) jobs /\
  (forall pre a mid b post,
      jobs = pre ++ a :: mid ++ b :: post ->
      visaStatus b = Mentioned -> visaStatus a = Mentioned) /\
  (forall k, filter (same_keys k) jobs
             = filter (same_keys k) (List.map normalize sample_raw_jobs)).
Proof.
  apply (getJobs_sorted_stable default_compare sample_raw_jobs
           default_compare_collation).
  intros a b _ _ H. apply default_compare_zero. exact H.
Defined.

Lemma host_lc_collation : Collation host_lc.
Proof.
  unfold host_lc. split.
  - intros a. apply default_compare_refl.
  - intros a b. apply default_compare_anti.
  - intros a b c. apply default_compare_trans.
Qed.

(** C5 fails on the code where [localeCompare] returns 0 for two different
    country strings.  Line 77 compares the countries with [!==], so line 78
    returns that 0 and line 80, which compares the companies, is not
    reached: the two records of R\u00E9union are equal on visa status and,
    for the collation, on country, yet [getJobs] leaves "Zeta" before
    "Acme".  The result is not in the three-key order (whether the
    countries count as equal by identity or by the collation), although the
    other arrangement is. *)
Theorem getJobs_skips_company_order :
  Collation host_lc /\
  host_lc (lit "R" ++ [233%N] ++ lit "union")
          (lit "Re" ++ [769%N] ++ lit "union") = 0%Z /\
  (0 < host_lc (lit "Zeta") (lit "Acme"))%Z /\
  List.map link (getJobs host_lc reunion_raw_jobs) = [lit "1"; lit "2"] /\
  ~ StronglySorted (job_le host_lc) (getJobs host_lc reunion_raw_jobs) /\
  ~ StronglySorted (job_le_collated host_lc)
                   (getJobs host_lc reunion_raw_jobs) /\
  StronglySorted (job_le_collated host_lc)
                 (rev (getJobs host_lc reunion_raw_jobs)).
Proof.
  split; [exact host_lc_collation|].
  split; [vm_compute; reflexivity|].
  split; [vm_compute; reflexivity|].
  split; [vm_compute; reflexivity|].
  assert (E : getJobs host_lc reunion_raw_jobs
              = List.map normalize reunion_raw_jobs).
  { vm_compute. reflexivity. }
  rewrite E. cbn [List.map reunion_raw_jobs rev app].
  split; [|split].
  - intros H. inversion H as [|? ? _ Hall]; subst.
    inversion Hall as [|? ? Hab _]; subst.
    destruct Hab as [Hr|[_ [Hc|[Hc _]]]].
    + vm_compute in Hr. lia.
    + vm_compute in Hc. discriminate Hc.
    + vm_compute in Hc. discriminate Hc.
  - intros H. inversion H as [|? ? _ Hall]; subst.
    inversion Hall as [|? ? Hab _]; subst.
    destruct Hab as [Hr|[_ [Hc|[_ Hp]]]].
    + vm_compute in Hr. lia.
    + vm_compute in Hc. discriminate Hc.
    + vm_compute in Hp. apply Hp. reflexivity.
  - repeat (apply SSorted_cons || apply SSorted_nil
            || apply Forall_cons || apply Forall_nil).
    right. split; [reflexivity|]. right.
    split; vm_compute; [reflexivity|discriminate].
Qed.

Lemma criterion_text sel x :
  negb (str_eqb sel (lit "All")) && negb (str_eqb x sel) = false <->
  sel = lit "All" \/ x = sel.
Proof.
  rewrite andb_false_iff, !negb_false_iff, !str_eqb_eq. tauto.
Qed.

Lemma criterion_visa f v :
  negb (is_all f) && negb (visa_filter_eqb v f) = false <->
  f = AllStatuses \/ f = Only v.
Proof.
  destruct f as [|w]; simpl.
  - split; auto.
  - rewrite negb_false_iff, visa_eqb_eq. split.
    + intros ->. right. reflexivity.
    + intros [H|H]; [discriminate H|]. inversion H. reflexivity.
Qed.

Lemma truthy_false s : truthy s = false <-> s = [].
Proof. destruct s; simpl; split; congruence. Qed.

(** C6: a job is shown if and only if it is in the list and passes the
    four criteria together: the country selection is "All" or the job's
    country, the job-type selection is "All" or the job's type, the visa
    selection is "All" or the job's status, and the trimmed keyword is empty
    or its lower-case form occurs in the lower-case form of
    title, space, company, space, reason.  With the ASCII behaviour of
    [toLowerCase], the keyword "VIDEO" selects a job titled "Video Editor". *)
Theorem filteredJobs_spec (toLowerCase : jsstring -> jsstring) :
  (forall s, forallb is_ascii s = true ->
             toLowerCase s = List.map ascii_lower s) ->
  (forall jobs country' jobType' visaStatus' searchTerm job,
      In job (filteredJobs toLowerCase jobs country' jobType' visaStatus'
                           searchTerm) <->
      In job jobs /\
      (country' = lit "All" \/ country job = country') /\
      (jobType' = lit "All" \/ jobType job = jobType') /\
      (visaStatus' = AllStatuses \/ visaStatus' = Only (visaStatus job)) /\
      (trim searchTerm = [] \/
       exists u v,
         toLowerCase (title job ++ lit " " ++ company job ++ lit " " ++ reason job)
         = u ++ toLowerCase (trim searchTerm) ++ v)) /\
  (forall jobs job,
      In job jobs -> title job = lit "Video Editor" ->
      forallb is_ascii (company job) = true ->
      forallb is_ascii (reason job) = true ->
      In job (filteredJobs toLowerCase jobs (lit "All") (lit "All")
                           AllStatuses (lit "VIDEO"))).
Proof.
  intros Hascii.
  assert (Hspec : forall jobs country' jobType' visaStatus' searchTerm job,
      In job (filteredJobs toLowerCase jobs country' jobType' visaStatus'
                           searchTerm) <->
      In job jobs /\
      (country' = lit "All" \/ country job = country') /\
      (jobType' = lit "All" \/ jobType job = jobType') /\
      (visaStatus' = AllStatuses \/ visaStatus' = Only (visaStatus job)) /\
      (trim searchTerm = [] \/
       exists u v,
         toLowerCase (title job ++ lit " " ++ company job ++ lit " " ++ reason job)
         = u ++ toLowerCase (trim searchTerm) ++ v)).
  { intros jobs country' jobType' visaStatus' searchTerm job.
    unfold filteredJobs. rewrite filter_In.
    rewrite <- criterion_text, <- criterion_text, <- criterion_visa.
    rewrite <- truthy_false, <- includes_spec. unfold keep.
    destruct (negb (str_eqb country' (lit "All")) &&
              negb (str_eqb (country job) country'));
      [intuition discriminate|].
    destruct (negb (str_eqb jobType' (lit "All")) &&
              negb (str_eqb (jobType job) jobType'));
      [intuition discriminate|].
    destruct (negb (is_all visaStatus') &&
              negb (visa_filter_eqb (visaStatus job) visaStatus'));
      [intuition discriminate|].
    destruct (truthy (trim searchTerm)); [|tauto].
    destruct (includes _ _); simpl; intuition discriminate. }
  split; [exact Hspec|].
  intros jobs job Hin Ht Hc Hr. apply Hspec.
  split; [exact Hin|]. repeat (split; [left; reflexivity|]).
  right. rewrite !Hascii.
  - rewrite Ht. exists [], (List.map ascii_lower
      (lit " Editor" ++ lit " " ++ company job ++ lit " " ++ reason job)).
    reflexivity.
  - vm_compute. reflexivity.
  - rewrite Ht, !forallb_app, Hc, Hr. reflexivity.
Qed.

Lemma filteredJobs_spec_witness :
  (forall jobs country' jobType' visaStatus' searchTerm job,
      In job (filteredJobs ascii_toLowerCase jobs country' jobType'
                           visaStatus' searchTerm) <->
      In job jobs /\
      (country' = lit "All" \/ country job = country') /\
      (jobType' = lit "All" \/ jobType job = jobType') /\
      (visaStatus' = AllStatuses \/ visaStatus' = Only (visaStatus job)) /\
      (trim searchTerm = [] \/
       exists u v,
         ascii_toLowerCase
           (title job ++ lit " " ++ company job ++ lit " " ++ reason job)
         = u ++ ascii_toLowerCase (trim searchTerm) ++ v)) /\
  (forall jobs job,
      In job jobs -> title job = lit "Video Editor" ->
      forallb is_ascii (company job) = true ->
      forallb is_ascii (reason job) = true ->
      In job (filteredJobs ascii_toLowerCase jobs (lit "All") (lit "All")
                           AllStatuses (lit "VIDEO"))).
Proof.
  apply (filteredJobs_spec ascii_toLowerCase).
  intros s _. reflexivity.
Defined.

Example filter_uk :
  List.map link
    (filteredJobs ascii_toLowerCase (getJobs default_compare sample_raw_jobs)
                  (lit "UK") (lit "All") AllStatuses (lit "  beTA "))
  = [lit "2"; lit "4"].
Proof. vm_compute. reflexivity. Qed.

(** C7: the priority group consists of the jobs of the visible subset with
    status "Mentioned" and the secondary group of all the others, each in
    the order of the subset: the subset is dealt in order into the two
    groups, which have no job in common, and every job of the subset is in
    exactly one of them. *)
Theorem partition_spec (visible : list Job) :
  Partition visible (priorityJobs visible) (otherJobs visible) /\
  (forall j, In j (priorityJobs visible) <->
             In j visible /\ visaStatus j = Mentioned) /\
  (forall j, In j (otherJobs visible) <->
             In j visible /\ visaStatus j <> Mentioned) /\
  (forall j, ~ (In j (priorityJobs visible) /\ In j (otherJobs visible))) /\
  (forall j, In j visible ->
             In j (priorityJobs visible) \/ In j (otherJobs visible)) /\
  length (priorityJobs visible) + length (otherJobs visible) = length visible /\
  Permutation (priorityJobs visible ++ otherJobs visible) visible.
Proof.
  unfold priorityJobs, otherJobs.
  assert (Hp : forall j, In j (filter (fun job => visa_eqb (visaStatus job) Mentioned) visible)
                         <-> In j visible /\ visaStatus j = Mentioned).
  { intros j. rewrite filter_In, visa_eqb_eq. reflexivity. }
  assert (Ho : forall j, In j (filter (fun job => negb (visa_eqb (visaStatus job) Mentioned)) visible)
                         <-> In j visible /\ visaStatus j <> Mentioned).
  { intros j. rewrite filter_In, negb_true_iff.
    destruct (visaStatus j); simpl; intuition congruence. }
  split; [|split; [exact Hp|split; [exact Ho|]]].
  - induction visible as [|j l IH]; simpl; [constructor|].
    destruct (visaStatus j) eqn:E; simpl.
    + apply Part_priority; [exact E|]. apply IH.
      * intros x. rewrite filter_In, visa_eqb_eq. reflexivity.
      * intros x. rewrite filter_In, negb_true_iff.
        destruct (visaStatus x); simpl; intuition congruence.
    + apply Part_other; [congruence|]. apply IH.
      * intros x. rewrite filter_In, visa_eqb_eq. reflexivity.
      * intros x. rewrite filter_In, negb_true_iff.
        destruct (visaStatus x); simpl; intuition congruence.
  - split; [|split; [|split]].
    + intros j [H1 H2]. apply Hp in H1. apply Ho in H2. tauto.
    + intros j Hj. rewrite Hp, Ho.
      destruct (visaStatus j); [left|right]; split; congruence.
    + clear Hp Ho. induction visible as [|j l IH]; [reflexivity|]. simpl.
      destruct (visa_eqb (visaStatus j) Mentioned); simpl; lia.
    + clear Hp Ho. induction visible as [|j l IH]; [constructor|]. simpl.
      destruct (visa_eqb (visaStatus j) Mentioned); simpl.
      * apply perm_skip. exact IH.
      * apply Permutation_sym. apply Permutation_cons_app.
        apply Permutation_sym. exact IH.
Qed.

(** C8: [total] is the length of the list, [visaMentioned] the number of
    jobs with status "Mentioned", and [visaNotMentioned] is computed as the
    difference, so that the two counts add up to [total]; the difference is
    the number of the other jobs. *)
Theorem getJobStats_counts (jobs : list Job) :
  let stats := getJobStats jobs in
  total stats = Z.of_nat (length jobs) /\
  visaMentioned stats = Z.of_nat (count_status Mentioned jobs) /\
  visaNotMentioned stats = (total stats - visaMentioned stats)%Z /\
  (visaMentioned stats + visaNotMentioned stats = total stats)%Z /\
  visaNotMentioned stats = Z.of_nat (count_status NotMentioned jobs).
Proof.
  simpl. rewrite <- (count_status_filter Mentioned jobs).
  pose proof (count_status_total jobs).
  repeat split; lia.
Qed.

(** C9: [countries] and [jobTypes] have no duplicates, are sorted in
    strictly ascending order of the code units, and contain exactly the
    countries (job types) occurring in the list. *)
Theorem getJobStats_dimensions (jobs : list Job) :
  let stats := getJobStats jobs in
  (NoDup (countries stats) /\
   StronglySorted (fun a b => str_ltb a b = true) (countries stats) /\
   forall c, In c (countries stats) <-> In c (List.map country jobs)) /\
  (NoDup (jobTypes stats) /\
   StronglySorted (fun a b => str_ltb a b = true) (jobTypes stats) /\
   forall c, In c (jobTypes stats) <-> In c (List.map jobType jobs)).
Proof.
  assert (H : forall values,
    let out := Array_sort default_compare (Set_from values) in
    NoDup out /\
    StronglySorted (fun a b => str_ltb a b = true) out /\
    forall c, In c out <-> In c values).
  { intros values out.
    pose proof (Array_sort_perm default_compare (Set_from values)) as Hperm.
    assert (Hnd : NoDup out).
    { apply (Permutation_NoDup (Permutation_sym Hperm)).
      apply Set_from_NoDup. }
    split; [exact Hnd|]. split.
    - apply StronglySorted_impl
        with (R := fun x y => (default_compare x y <= 0)%Z /\ x <> y).
      + intros x y _ _ [Hle Hne]. apply default_compare_le in Hle.
        destruct (str_ltb x y) eqn:E; [reflexivity|].
        exfalso. apply Hne. apply str_ltb_total; assumption.
      + apply StronglySorted_NoDup; [|exact Hnd].
        apply Array_sort_sorted with (Q := fun _ => True).
        * intros x y Hxy. apply default_compare_anti in Hxy. lia.
        * intros x y z _ _ _. apply default_compare_trans.
        * apply Forall_forall. auto.
    - intros c. rewrite <- (Set_from_In values c).
      split; apply Permutation_in;
        [exact Hperm|apply Permutation_sym; exact Hperm]. }
  intros stats. split; apply H.
Qed.

Example getJobStats_sample :
  let stats := getJobStats (getJobs default_compare sample_raw_jobs) in
  total stats = 4%Z /\ visaMentioned stats = 3%Z /\
  visaNotMentioned stats = 1%Z /\
  countries stats = [lit "France"; lit "UK"] /\
  jobTypes stats = [lit "Video"].
Proof. vm_compute. repeat split; reflexivity. Qed.

(* ================================================================= *)
(** * Further properties of the sanitizer *)

Lemma collapsedb_at u c v :
  collapsedb (u ++ c :: v) = true -> is_ws c = true ->
  c = c_space /\ starts_ok v = true.
Proof.
  intros H Hc. apply collapsedb_app in H. destruct H as [_ H].
  simpl in H. rewrite Hc in H. simpl in H.
  apply andb_true_iff in H. destruct H as [H _].
  apply andb_true_iff in H. destruct H as [H1 H2].
  apply char_eqb_eq in H1. auto.
Qed.

(** A returned snippet is never empty, and whitespace occurs in it only as
    a single space (U+0020) between two characters that are not
    whitespace: never first, never last, never doubled. *)
Theorem cleanSnippet_whitespace_shape (s : option jsstring) (r : jsstring) :
  cleanSnippet s = Some r ->
  r <> [] /\
  forall u c v, r = u ++ c :: v -> is_ws c = true ->
    c = c_space /\
    (exists u' a, u = u' ++ [a] /\ is_ws a = false) /\
    (exists b v', v = b :: v' /\ is_ws b = false).
Proof.
  intros H. destruct (cleanSnippet_clean _ _ H) as [[_ Hc Ht] Hne].
  split; [exact Hne|]. intros u c v -> Hws.
  unfold trimmedb in Ht. apply andb_true_iff in Ht. destruct Ht as [Hs He].
  destruct (collapsedb_at _ _ _ Hc Hws) as [Hsp Hv].
  split; [exact Hsp|]. split.
  - destruct u as [|a u'] using rev_ind.
    + simpl in Hs. rewrite Hws in Hs. discriminate Hs.
    + exists u', a. split; [reflexivity|].
      assert (Hp : collapsedb ((u' ++ [a]) ++ [c]) = true).
      { change (c :: v) with ([c] ++ v) in Hc. rewrite app_assoc in Hc.
        apply collapsedb_app in Hc. tauto. }
      apply collapsedb_before_ws in Hp; [|exact Hws].
      rewrite rev_unit in Hp. simpl in Hp.
      destruct (is_ws a); [discriminate Hp|reflexivity].
  - destruct v as [|b v'].
    + rewrite rev_unit in He. simpl in He. rewrite Hws in He.
      discriminate He.
    + exists b, v'. split; [reflexivity|]. simpl in Hv.
      destruct (is_ws b); [discriminate Hv|reflexivity].
Qed.

Lemma cleanSnippet_whitespace_shape_witness :
  lit "Relocation & visa sponsored Apply now" <> [] /\
  forall u c v,
    lit "Relocation & visa sponsored Apply now" = u ++ c :: v ->
    is_ws c = true ->
    c = c_space /\
    (exists u' a, u = u' ++ [a] /\ is_ws a = false) /\
    (exists b v', v = b :: v' /\ is_ws b = false).
Proof.
  apply (cleanSnippet_whitespace_shape (Some fixture_snippet)).
  vm_compute. reflexivity.
Defined.

Lemma squeeze_all_ws b s :
  forallb is_ws s = true -> forallb is_ws (squeeze b s) = true.
Proof.
  revert b. induction s as [|c t IH]; intros b; [reflexivity|]. simpl.
  intros H. apply andb_true_iff in H. destruct H as [Hc Ht].
  rewrite Hc. destruct b; simpl; auto.
Qed.

Lemma trim_all_ws s : forallb is_ws s = true -> trim s = [].
Proof.
  intros H. unfold trim, trimStart.
  assert (E : dropWhile is_ws s = []).
  { induction s as [|c t IH]; [reflexivity|]. simpl in *.
    apply andb_true_iff in H. destruct H as [Hc Ht]. rewrite Hc. auto. }
  rewrite E. reflexivity.
Qed.

Lemma all_ws_notin c s :
  is_ws c = false -> forallb is_ws s = true -> ~ In c s.
Proof.
  intros Hc H Hin. rewrite forallb_forall in H. apply H in Hin. congruence.
Qed.

(** A snippet that consists of whitespace only is absent after
    sanitization, like the empty and the missing snippet. *)
Theorem cleanSnippet_blank (s : jsstring) :
  forallb is_ws s = true -> cleanSnippet (Some s) = None.
Proof.
  intros H. destruct (cleanSnippet (Some s)) as [r|] eqn:E; [|reflexivity].
  apply cleanSnippet_Some in E. destruct E as (s0 & Hs & _ & Hc & _).
  injection Hs as <-. exfalso. apply Hc.
  rewrite collapsed_text_plain by (apply all_ws_notin; [reflexivity|exact H]).
  unfold collapse. rewrite replace_spaces_squeeze.
  apply trim_all_ws, squeeze_all_ws, H.
Qed.

Lemma cleanSnippet_blank_witness :
  cleanSnippet (Some [c_space; 9%N; 160%N; 10%N; 8232%N]) = None.
Proof.
  apply (cleanSnippet_blank [c_space; 9%N; 160%N; 10%N; 8232%N]).
  vm_compute. reflexivity.
Defined.

Lemma trimEnd_prefix s : exists b, s = trimEnd s ++ b.
Proof.
  unfold trimEnd. destruct (dropWhile_split is_ws (rev s)) as (a & Hs & _).
  exists (rev a). rewrite <- rev_app_distr, <- Hs, rev_involutive.
  reflexivity.
Qed.

(** The shape of a truncated snippet: when the collapsed text has more than
    220 characters the result is a prefix of it, 216 or 217 characters
    long, followed by the ellipsis; otherwise the result is the collapsed
    text itself. *)
Theorem cleanSnippet_truncation_shape (s r : jsstring) :
  cleanSnippet (Some s) = Some r ->
  let c := collapsed_text s in
  (length c <= 220 -> r = c) /\
  (220 < length c ->
     exists p q, r = p ++ [c_ellipsis] /\ c = p ++ q /\
                 216 <= length p <= 217).
Proof.
  intros H c. apply cleanSnippet_Some in H.
  destruct H as (s0 & Hs & _ & _ & ->). injection Hs as <-. fold c.
  split.
  - intros Hle. apply truncate_id. exact Hle.
  - intros Hlt. unfold truncate.
    rewrite (proj2 (Nat.ltb_lt _ _) Hlt).
    assert (Hclean : Clean c) by apply collapsed_text_clean.
    pose proof (length_trim_prefix c 216 Hclean) as Hlen.
    assert (Hst : starts_ok (firstn 217 c) = true).
    { apply starts_ok_firstn. destruct Hclean as [_ _ Ht].
      unfold trimmedb in Ht. apply andb_true_iff in Ht. tauto. }
    destruct (trimEnd_prefix (firstn 217 c)) as [b Hb].
    assert (Htr : trim (firstn 217 c) = trimEnd (firstn 217 c)).
    { unfold trim, trimStart. rewrite (dropWhile_id _ Hst). reflexivity. }
    exists (trim (firstn 217 c)), (b ++ skipn 217 c).
    split; [reflexivity|]. split.
    + rewrite app_assoc, Htr, <- Hb, firstn_skipn. reflexivity.
    + rewrite Hlen by lia.
      destruct (is_ws (nth 216 c 0%N)); lia.
Qed.

Lemma cleanSnippet_truncation_shape_witness :
  let s := repeat 97%N 300 in
  let r := repeat 97%N 217 ++ [c_ellipsis] in
  let c := collapsed_text s in
  (length c <= 220 -> r = c) /\
  (220 < length c ->
     exists p q, r = p ++ [c_ellipsis] /\ c = p ++ q /\
                 216 <= length p <= 217).
Proof.
  apply (cleanSnippet_truncation_shape (repeat 97%N 300)
                                       (repeat 97%N 217 ++ [c_ellipsis])).
  vm_compute. reflexivity.
Defined.

Lemma Matches_min_len r w : Matches r w -> min_len r <= length w.
Proof. induction 1; simpl in *; lia. Qed.

Lemma re_match_min_len r s n : re_match r s = Some n -> min_len r <= n.
Proof.
  intros H. apply re_match_sound in H. destruct H as [Hn Hm].
  apply Matches_min_len in Hm. rewrite length_firstn in Hm. lia.
Qed.

Section ReplaceLength.
Variable m : jsstring -> option nat.
Variable rep : jsstring.
Hypothesis m_proper : proper m.
Hypothesis rep_short : forall s n, m s = Some n -> length rep <= n.

Lemma length_replace_le s : length (replace_go m rep 0 s) <= length s.
Proof.
  pattern s, (replace_go m rep 0 s). apply (replace_scan_ind m rep m_proper).
  - simpl. lia.
  - intros c t _ IH. simpl. lia.
  - intros c t n Hm Hn IH. apply rep_short in Hm.
    rewrite length_app. rewrite length_skipn in IH. simpl. lia.
Qed.

(** With a replacement shorter than every match, a text with a match gets
    shorter. *)
Lemma length_replace_lt s :
  (forall s n, m s = Some n -> length rep < n) ->
  (exists u v, s = u ++ v /\ m v <> None) ->
  length (replace_go m rep 0 s) < length s.
Proof.
  intros Hlt. pattern s, (replace_go m rep 0 s).
  apply (replace_scan_ind m rep m_proper).
  - intros (u & v & Huv & Hv). symmetry in Huv. apply app_eq_nil in Huv.
    destruct Huv as [_ ->]. rewrite (m_nil m m_proper) in Hv. congruence.
  - intros c t Hm IH (u & v & Huv & Hv). simpl.
    destruct u as [|x u]; simpl in Huv.
    + subst v. congruence.
    + inversion Huv; subst. apply -> Nat.succ_lt_mono. apply IH.
      exists u, v. auto.
  - intros c t n Hm Hn _ _. apply Hlt in Hm.
    pose proof (length_replace_le (skipn n t)) as Hle.
    rewrite length_app. rewrite length_skipn in Hle. simpl. lia.
Qed.
End ReplaceLength.

Lemma HTML_ENTITIES_shorter ev :
  In ev HTML_ENTITIES -> length (snd ev) < length (fst ev).
Proof.
  intros H. simpl in H.
  destruct H as [<-|[<-|[<-|[<-|[<-|[<-|[]]]]]]]; simpl; lia.
Qed.

Lemma lit_match_length sep s n : lit_match sep s = Some n -> n = length sep.
Proof.
  unfold lit_match. destruct (is_prefix sep s); congruence.
Qed.

Lemma length_replace_lit_le sep v s :
  sep <> [] -> length v <= length sep ->
  length (replace_lit sep v s) <= length s.
Proof.
  intros Hsep Hv. apply length_replace_le.
  - apply lit_match_proper. exact Hsep.
  - intros s0 n H. apply lit_match_length in H. lia.
Qed.

Lemma length_replace_lit_lt sep v s :
  sep <> [] -> length v < length sep -> includes s sep = true ->
  length (replace_lit sep v s) < length s.
Proof.
  intros Hsep Hv Hinc. apply length_replace_lt.
  - apply lit_match_proper. exact Hsep.
  - intros s0 n H. apply lit_match_length in H. lia.
  - intros s0 n H. apply lit_match_length in H. lia.
  - apply includes_spec in Hinc. destruct Hinc as (u & w & ->).
    exists u, (sep ++ w). split; [reflexivity|].
    unfold lit_match. rewrite is_prefix_app. discriminate.
Qed.

Lemma length_decode_fold (l : list (jsstring * jsstring)) r :
  (forall ev, In ev l -> fst ev <> [] /\ length (snd ev) < length (fst ev)) ->
  let out :=
    fold_left (fun result ev => join (snd ev) (split (fst ev) result)) l r in
  length out <= length r /\
  (existsb (fun ev => includes r (fst ev)) l = true -> length out < length r).
Proof.
  revert r. induction l as [|ev l IH]; intros r H; simpl.
  - split; [lia|discriminate].
  - destruct (H ev (or_introl eq_refl)) as [Hne Hlen].
    rewrite join_split by exact Hne.
    destruct (IH (replace_lit (fst ev) (snd ev) r)
                 (fun e He => H e (or_intror He))) as [IH1 IH2].
    pose proof (length_replace_lit_le (fst ev) (snd ev) r Hne
                  (Nat.lt_le_incl _ _ Hlen)) as Hle.
    split; [lia|]. intros Hex.
    destruct (includes r (fst ev)) eqn:E.
    + pose proof (length_replace_lit_lt _ _ _ Hne Hlen E). lia.
    + simpl in Hex. rewrite (replace_lit_absent _ _ _ Hne E) in *.
      specialize (IH2 Hex). lia.
Qed.

Lemma length_decode_entities s :
  length (decode_entities s) <= length s /\
  (has_entity s = true -> length (decode_entities s) < length s).
Proof.
  apply length_decode_fold. intros ev Hin. split.
  - apply HTML_ENTITIES_nonempty. exact Hin.
  - apply HTML_ENTITIES_shorter. exact Hin.
Qed.

Lemma length_replace_regex r rep s :
  proper (re_match r) -> length rep <= min_len r ->
  length (replace r rep s) <= length s.
Proof.
  intros Hp Hrep. apply length_replace_le; [exact Hp|].
  intros s0 n H. apply re_match_min_len in H. lia.
Qed.

Lemma length_strip_markup s : length (strip_markup s) <= length s.
Proof.
  unfold strip_markup.
  repeat (etransitivity;
          [apply length_replace_regex; [apply proper_cls|simpl; lia]|]).
  reflexivity.
Qed.

Lemma length_collapse s : length (collapse s) <= length s.
Proof.
  unfold collapse. etransitivity; [apply length_trim|].
  apply length_replace_regex; [apply proper_plus|simpl; lia].
Qed.

Lemma length_truncate c : length (truncate c) <= length c.
Proof.
  destruct (truncate_length c) as [_ H]. unfold truncate in *.
  destruct (220 <? length c) eqn:E; [|reflexivity].
  apply Nat.ltb_lt in E. specialize (H E). lia.
Qed.

Lemma length_collapsed_text s :
  length (collapsed_text s) <= length (decode_entities s).
Proof.
  unfold collapsed_text. etransitivity; [apply length_collapse|].
  apply length_strip_markup.
Qed.

(** Sanitizing never makes a snippet longer. *)
Theorem cleanSnippet_never_longer (s r : jsstring) :
  cleanSnippet (Some s) = Some r -> length r <= length s.
Proof.
  intros H. apply cleanSnippet_Some in H.
  destruct H as (s0 & Hs & _ & _ & ->). injection Hs as <-.
  etransitivity; [apply length_truncate|].
  etransitivity; [apply length_collapsed_text|].
  apply length_decode_entities.
Qed.

Lemma cleanSnippet_never_longer_witness :
  length (lit "Relocation & visa sponsored Apply now")
  <= length fixture_snippet.
Proof.
  apply (cleanSnippet_never_longer fixture_snippet).
  vm_compute. reflexivity.
Defined.

(** The texts that the sanitizer returns unchanged are exactly the
    non-empty texts of at most 220 characters that contain no entity of the
    table and no tag, and whose whitespace is single spaces between other
    characters. *)
Theorem cleanSnippet_fixed_points (r : jsstring) :
  cleanSnippet (Some r) = Some r <->
  r <> [] /\ length r <= 220 /\ has_entity r = false /\
  NoTag r /\ collapsedb r = true /\ trimmedb r = true.
Proof.
  split.
  - intros H. destruct (cleanSnippet_clean _ _ H) as [[Hn Hc Ht] Hne].
    pose proof (cleanSnippet_Some (Some r) r) as [Hs _].
    destruct (Hs H) as (s0 & Hs0 & _ & _ & Hr). injection Hs0 as <-.
    repeat split; try assumption.
    + rewrite Hr. apply truncate_length.
    + destruct (has_entity r) eqn:E; [|reflexivity]. exfalso.
      pose proof (proj2 (length_decode_entities r) E) as Hlt.
      pose proof (length_collapsed_text r) as H1.
      pose proof (length_truncate (collapsed_text r)) as H2.
      rewrite <- Hr in H2. lia.
  - intros (Hne & Hlen & Hent & Hn & Hc & Ht).
    apply clean_fixed; [split| | |]; assumption.
Qed.

(** The sanitizer adds no character other than the space, the bullet, the
    ellipsis and the five characters that the entities stand for: every
    other character of the result occurs in the input. *)
Theorem cleanSnippet_alphabet (s r : jsstring) :
  cleanSnippet (Some s) = Some r ->
  forall x, In x r -> In x s \/ In x added_chars.
Proof.
  intros H. apply cleanSnippet_Some in H.
  destruct H as (s0 & Hs & _ & _ & ->). injection Hs as <-.
  set (P := fun y : jsstring => forall x, In x y -> In x s \/ In x added_chars).
  assert (Hrep : forall m rep y, proper m -> incl rep added_chars ->
                                 P y -> P (replace_go m rep 0 y)).
  { intros m rep y Hm Hinc Hy x Hx.
    destruct (In_replace m rep Hm x y Hx) as [Hi|Hi]; [apply Hy; exact Hi|].
    right. apply Hinc. exact Hi. }
  assert (Htrim : forall y, P y -> P (trim y)).
  { intros y Hy x Hx. apply Hy. destruct (trim_infix y) as (a & b & Hab).
    rewrite Hab. apply in_or_app. right. apply in_or_app. left. exact Hx. }
  assert (Hdec : P (decode_entities s)).
  { rewrite decode_entities_unfold. unfold replace_lit.
    repeat (apply Hrep;
            [apply lit_match_proper; discriminate
            |intros y Hy; vm_compute in Hy |- *; tauto|]).
    intros x Hx. left. exact Hx. }
  assert (Hstrip : P (strip_markup (decode_entities s))).
  { unfold strip_markup, replace.
    repeat (apply Hrep;
            [apply proper_cls
            |intros y Hy; vm_compute in Hy |- *; tauto|]).
    exact Hdec. }
  assert (Hcol : P (collapsed_text s)).
  { unfold collapsed_text, collapse, replace. apply Htrim.
    apply Hrep; [apply proper_plus| |exact Hstrip].
    intros y Hy. vm_compute in Hy |- *. tauto. }
  unfold truncate. destruct (220 <? length (collapsed_text s)).
  - intros x Hx. apply in_app_or in Hx. destruct Hx as [Hx|[<-|[]]].
    + apply (Htrim (firstn 217 (collapsed_text s))); [|exact Hx].
      intros y Hy. apply Hcol.
      rewrite <- (firstn_skipn 217 (collapsed_text s)).
      apply in_or_app. left. exact Hy.
    + right. vm_compute. tauto.
  - exact Hcol.
Qed.

Lemma cleanSnippet_alphabet_witness :
  cleanSnippet (Some fixture_snippet)
  = Some (lit "Relocation & visa sponsored Apply now") /\
  forall x, In x (lit "Relocation & visa sponsored Apply now") ->
            In x fixture_snippet \/ In x added_chars.
Proof.
  assert (H : cleanSnippet (Some fixture_snippet)
              = Some (lit "Relocation & visa sponsored Apply now")).
  { vm_compute. reflexivity. }
  split; [exact H|]. apply (cleanSnippet_alphabet fixture_snippet _ H).
Defined.

(* ================================================================= *)
(** ** Decoding escaped texts *)

Lemma replace_lit_amp_free_app sep v body t :
  ~ In c_amp body ->
  replace_lit (c_amp :: sep) v (body ++ t)
  = body ++ replace_lit (c_amp :: sep) v t.
Proof.
  induction body as [|c body IH]; intros H; [reflexivity|]. simpl app.
  rewrite replace_lit_miss.
  - rewrite IH; [reflexivity|]. intros Hx. apply H. right. exact Hx.
  - discriminate.
  - apply is_prefix_first_ne. intros <-. apply H. left. reflexivity.
Qed.

Lemma replace_lit_skip_entity sep v ent t :
  (exists body, ent = c_amp :: body /\ ~ In c_amp body /\
                forall t, is_prefix (c_amp :: sep) (ent ++ t) = false) ->
  replace_lit (c_amp :: sep) v (ent ++ t)
  = ent ++ replace_lit (c_amp :: sep) v t.
Proof.
  intros (body & -> & Hb & Hp). simpl app.
  rewrite replace_lit_miss; [|discriminate|apply (Hp t)].
  rewrite replace_lit_amp_free_app by exact Hb. reflexivity.
Qed.

Lemma escape_with_cons tbl c t :
  escape_with tbl (c :: t) = escape_char tbl c ++ escape_with tbl t.
Proof. reflexivity. Qed.

(** An entity that is no prefix of an entity of the table does not occur
    in the escaped text. *)
Lemma replace_lit_escape_other sep v tbl s :
  skipped_by (c_amp :: sep) tbl -> ~ In c_amp s ->
  replace_lit (c_amp :: sep) v (escape_with tbl s) = escape_with tbl s.
Proof.
  intros Htbl Hs. induction s as [|c t IH]; [reflexivity|].
  assert (Hc : c_amp <> c) by (intros <-; apply Hs; left; reflexivity).
  assert (Ht : ~ In c_amp t) by (intros Hx; apply Hs; right; exact Hx).
  rewrite escape_with_cons. unfold escape_char.
  destruct (find (fun p => char_eqb c (fst p)) tbl) as [p|] eqn:E.
  - apply find_some in E. destruct E as [Hin _].
    unfold skipped_by in Htbl. rewrite Forall_forall in Htbl.
    rewrite (replace_lit_skip_entity _ _ _ _ (Htbl p Hin)), (IH Ht).
    reflexivity.
  - simpl app. rewrite replace_lit_miss, (IH Ht);
      [reflexivity|discriminate|apply is_prefix_first_ne; exact Hc].
Qed.

(** Decoding the entity of the first row of the table undoes that row. *)
Lemma replace_lit_escape_row c sep tbl s :
  skipped_by (c_amp :: sep) tbl -> ~ In c_amp s ->
  (forall p, In p tbl -> fst p <> c) ->
  replace_lit (c_amp :: sep) [c] (escape_with ((c, c_amp :: sep) :: tbl) s)
  = escape_with tbl s.
Proof.
  intros Htbl Hs Hkey. induction s as [|x t IH]; [reflexivity|].
  assert (Hx : c_amp <> x) by (intros <-; apply Hs; left; reflexivity).
  assert (Ht : ~ In c_amp t) by (intros Hi; apply Hs; right; exact Hi).
  rewrite !escape_with_cons. unfold escape_char. cbn [find fst snd].
  destruct (char_eqb x c) eqn:Exc.
  - apply char_eqb_eq in Exc. subst x.
    rewrite replace_lit_hit by discriminate. cbn [snd]. rewrite (IH Ht).
    destruct (find (fun p => char_eqb c (fst p)) tbl) as [p|] eqn:E;
      [|reflexivity].
    apply find_some in E. destruct E as [Hin Hp].
    apply char_eqb_eq in Hp. exfalso. apply (Hkey p Hin). congruence.
  - destruct (find (fun p => char_eqb x (fst p)) tbl) as [p|] eqn:E.
    + apply find_some in E. destruct E as [Hin _].
      unfold skipped_by in Htbl. rewrite Forall_forall in Htbl.
      rewrite (replace_lit_skip_entity _ _ _ _ (Htbl p Hin)), (IH Ht).
      reflexivity.
    + simpl app. rewrite replace_lit_miss, (IH Ht);
        [reflexivity|discriminate|apply is_prefix_first_ne; exact Hx].
Qed.

Lemma escape_with_nil_table s : escape_with [] s = s.
Proof.
  induction s as [|c t IH]; [reflexivity|].
  rewrite escape_with_cons, IH. reflexivity.
Qed.

Ltac skipped :=
  unfold skipped_by;
  repeat (apply Forall_cons || apply Forall_nil);
  (eexists; split; [reflexivity|split;
     [apply notin_b; vm_compute; reflexivity|intros t; reflexivity]]).

Ltac fresh_key :=
  let p := fresh "p" in let H := fresh "H" in
  intros p H; simpl in H;
  repeat (destruct H as [<-|H]; [discriminate|]); destruct H.

(** Round trip: on a text without [&], decoding undoes the HTML escaping of
    [<], [>] and the two quotes. *)
Theorem decode_escape_roundtrip (s : jsstring) :
  ~ In c_amp s -> decode_entities (escape s) = s.
Proof.
  intros H. rewrite decode_entities_unfold. unfold escape, escape_table.
  change (lit "&nbsp;") with (c_amp :: lit "nbsp;").
  change (lit "&amp;") with (c_amp :: lit "amp;").
  change (lit "&lt;") with (c_amp :: lit "lt;").
  change (lit "&gt;") with (c_amp :: lit "gt;").
  change (lit "&quot;") with (c_amp :: lit "quot;").
  change (lit "&#39;") with (c_amp :: lit "#39;").
  change (lit " ") with [c_space]. change (lit "&") with [c_amp].
  change (lit "<") with [c_lt]. change (lit ">") with [c_gt].
  change (lit "'") with [39%N].
  rewrite (replace_lit_escape_other (lit "nbsp;")) by (skipped || exact H).
  rewrite (replace_lit_escape_other (lit "amp;")) by (skipped || exact H).
  rewrite (replace_lit_escape_row c_lt) by (skipped || exact H || fresh_key).
  rewrite (replace_lit_escape_row c_gt) by (skipped || exact H || fresh_key).
  rewrite (replace_lit_escape_row 34%N) by (skipped || exact H || fresh_key).
  rewrite (replace_lit_escape_row 39%N)
    by (apply Forall_nil || exact H || fresh_key).
  apply escape_with_nil_table.
Qed.

Lemma decode_escape_roundtrip_witness :
  decode_entities (escape (lit "<a href='x'>say " ++ [34%N] ++ lit "hi</a>"))
  = lit "<a href='x'>say " ++ [34%N] ++ lit "hi</a>".
Proof.
  apply (decode_escape_roundtrip
           (lit "<a href='x'>say " ++ [34%N] ++ lit "hi</a>")).
  apply notin_b. vm_compute. reflexivity.
Defined.

(* ================================================================= *)
(** * Further properties of the ordering *)

(** Whatever [localeCompare] returns, [getJobs] neither drops nor
    duplicates a record: the result is a rearrangement of the normalized
    records, so it has as many jobs, the same links, and pairwise different
    links whenever the records have. *)
Theorem getJobs_keeps_every_job
        (localeCompare : jsstring -> jsstring -> Z)
        (rawJobs : list Raw.RawJob) :
  let jobs := getJobs localeCompare rawJobs in
  Permutation jobs (List.map normalize rawJobs) /\
  length jobs = length rawJobs /\
  Permutation (List.map link jobs) (List.map Raw.link rawJobs) /\
  (NoDup (List.map Raw.link rawJobs) -> NoDup (List.map link jobs)).
Proof.
  intros jobs.
  assert (Hp : Permutation jobs (List.map normalize rawJobs))
    by apply Array_sort_perm.
  assert (Hl : Permutation (List.map link jobs) (List.map Raw.link rawJobs)).
  { rewrite (Permutation_map link Hp), map_map. apply Permutation_refl. }
  split; [exact Hp|]. split; [|split; [exact Hl|]].
  - rewrite (Permutation_length Hp). apply length_map.
  - intros Hn. apply (Permutation_NoDup (Permutation_sym Hl) Hn).
Qed.

Section VisaBlocks.
Variable lc : jsstring -> jsstring -> Z.

Let is_M (j : Job) : Prop := visaStatus j = Mentioned.
Let is_N (j : Job) : Prop := visaStatus j = NotMentioned.

Lemma insert_mentioned x ms ns :
  is_M x -> Forall is_N ns ->
  insert (compareJobs lc) x (ms ++ ns) = insert (compareJobs lc) x ms ++ ns.
Proof.
  intros Hx Hns. induction ms as [|y ms IH]; simpl.
  - destruct ns as [|y ns]; [reflexivity|]. simpl.
    inversion Hns as [|? ? Hy _]; subst. unfold compareJobs.
    unfold is_M in Hx. unfold is_N in Hy. rewrite Hx, Hy. reflexivity.
  - destruct (0 <? compareJobs lc x y)%Z; [|reflexivity].
    rewrite IH. reflexivity.
Qed.

Lemma insert_not_mentioned x ms ns :
  is_N x -> Forall is_M ms ->
  insert (compareJobs lc) x (ms ++ ns) = ms ++ insert (compareJobs lc) x ns.
Proof.
  intros Hx Hms. induction Hms as [|y ms Hy _ IH]; [reflexivity|]. simpl.
  unfold compareJobs at 1. unfold is_N in Hx. unfold is_M in Hy.
  rewrite Hx, Hy. simpl. rewrite IH. reflexivity.
Qed.

(** The sorted list is a block of mentioned jobs followed by a block of
    the others. *)
Lemma Array_sort_blocks l :
  exists ms ns, Array_sort (compareJobs lc) l = ms ++ ns /\
                Forall is_M ms /\ Forall is_N ns.
Proof.
  induction l as [|x l (ms & ns & E & Hm & Hn)]; simpl.
  - exists [], []. auto.
  - rewrite E. destruct (visaStatus x) eqn:Vx.
    + exists (insert (compareJobs lc) x ms), ns.
      split; [apply insert_mentioned; assumption|]. split; [|exact Hn].
      apply (Permutation_Forall (Permutation_sym (insert_perm _ x ms))).
      constructor; assumption.
    + exists ms, (insert (compareJobs lc) x ns).
      split; [apply insert_not_mentioned; assumption|]. split; [exact Hm|].
      apply (Permutation_Forall (Permutation_sym (insert_perm _ x ns))).
      constructor; assumption.
Qed.

Lemma blocks_groups ms ns :
  Forall is_M ms -> Forall is_N ns ->
  priorityJobs (ms ++ ns) ++ otherJobs (ms ++ ns) = ms ++ ns.
Proof.
  intros Hm Hn. unfold priorityJobs, otherJobs. rewrite !filter_app.
  assert (H1 : filter (fun job => visa_eqb (visaStatus job) Mentioned) ms = ms).
  { clear Hn. induction Hm as [|y ms Hy _ IH]; [reflexivity|]. simpl.
    unfold is_M in Hy. rewrite Hy, IH. reflexivity. }
  assert (H2 : filter (fun job => visa_eqb (visaStatus job) Mentioned) ns = []).
  { clear Hm H1. induction Hn as [|y ns Hy _ IH]; [reflexivity|]. simpl.
    unfold is_N in Hy. rewrite Hy, IH. reflexivity. }
  assert (H3 : filter (fun job => negb (visa_eqb (visaStatus job) Mentioned)) ms = []).
  { clear Hn H1 H2. induction Hm as [|y ms Hy _ IH]; [reflexivity|]. simpl.
    unfold is_M in Hy. rewrite Hy, IH. reflexivity. }
  assert (H4 : filter (fun job => negb (visa_eqb (visaStatus job) Mentioned)) ns = ns).
  { clear Hm H1 H2 H3. induction Hn as [|y ns Hy _ IH]; [reflexivity|]. simpl.
    unfold is_N in Hy. rewrite Hy, IH. reflexivity. }
  rewrite H1, H2, H3, H4, app_nil_r. reflexivity.
Qed.

Lemma Forall_filter {A} (P : A -> Prop) (f : A -> bool) l :
  Forall P l -> Forall P (filter f l).
Proof.
  rewrite !Forall_forall. intros H x Hx. apply filter_In in Hx. apply H.
  tauto.
Qed.

Lemma getJobs_blocks_filtered (f : Job -> bool) rawJobs :
  let visible := filter f (getJobs lc rawJobs) in
  priorityJobs visible ++ otherJobs visible = visible.
Proof.
  unfold getJobs.
  destruct (Array_sort_blocks (List.map normalize rawJobs))
    as (ms & ns & E & Hm & Hn).
  rewrite E. cbv zeta. rewrite filter_app.
  apply blocks_groups; apply Forall_filter; assumption.
Qed.
End VisaBlocks.

Lemma filter_true {A} (f : A -> bool) l :
  (forall x, In x l -> f x = true) -> filter f l = l.
Proof.
  induction l as [|x l IH]; intros H; [reflexivity|]. simpl.
  rewrite (H x (or_introl eq_refl)). f_equal. apply IH.
  intros y Hy. apply H. right. exact Hy.
Qed.

(** Whatever [localeCompare] returns, every job with a mentioned visa
    precedes every other job in the result of [getJobs], and in every list
    that the explorer filters out of it: the priority group followed by the
    secondary group is the visible list itself, in its order. *)
Theorem getJobs_visa_blocks
        (localeCompare : jsstring -> jsstring -> Z)
        (toLowerCase : jsstring -> jsstring)
        (rawJobs : list Raw.RawJob) :
  let jobs := getJobs localeCompare rawJobs in
  priorityJobs jobs ++ otherJobs jobs = jobs /\
  forall country' jobType' visaStatus' searchTerm,
    let visible := filteredJobs toLowerCase jobs country' jobType'
                                visaStatus' searchTerm in
    priorityJobs visible ++ otherJobs visible = visible.
Proof.
  intros jobs. split.
  - pose proof (getJobs_blocks_filtered localeCompare (fun _ => true) rawJobs)
      as H.
    cbv zeta in H. rewrite filter_true in H by reflexivity. exact H.
  - intros c t v k. apply getJobs_blocks_filtered.
Qed.

Lemma Array_sort_ordered {A} (cmp : A -> A -> Z) l :
  ordered_for cmp l -> Array_sort cmp l = l.
Proof.
  unfold ordered_for. induction 1 as [|x l Hs IH Hall]; [reflexivity|].
  simpl. rewrite IH. destruct l as [|y l]; [reflexivity|]. simpl.
  inversion Hall as [|? ? Hxy _]; subst.
  destruct (0 <? cmp x y)%Z eqn:E; [|reflexivity].
  apply Z.ltb_lt in E. lia.
Qed.

(** For a [localeCompare] that is a consistent comparison function and
    tells apart the different countries of the records (so that the
    comparison function of [getJobs] is consistent on them), records that
    are already in the order of the comparison function (no job is reported
    greater than a later one) are returned in their order. *)
Theorem getJobs_ordered_input
        (localeCompare : jsstring -> jsstring -> Z)
        (rawJobs : list Raw.RawJob) :
  Collation localeCompare ->
  countries_separated localeCompare rawJobs ->
  ordered_for (compareJobs localeCompare) (List.map normalize rawJobs) ->
  getJobs localeCompare rawJobs = List.map normalize rawJobs.
Proof. intros _ _ H. apply Array_sort_ordered. exact H. Qed.

Lemma getJobs_ordered_input_witness :
  getJobs default_compare ordered_raw_jobs
  = List.map normalize ordered_raw_jobs.
Proof.
  apply (getJobs_ordered_input default_compare ordered_raw_jobs
           default_compare_collation).
  - intros a b _ _ H. apply default_compare_zero. exact H.
  - unfold ordered_for.
    repeat (apply SSorted_cons || apply SSorted_nil
            || apply Forall_cons || apply Forall_nil);
      vm_compute; discriminate.
Defined.

Lemma StronglySorted_filter {A} (R : A -> A -> Prop) (f : A -> bool) l :
  StronglySorted R l -> StronglySorted R (filter f l).
Proof.
  induction 1 as [|x l Hs IH Hall]; simpl; [constructor|].
  destruct (f x); [|exact IH]. constructor; [exact IH|].
  apply Forall_filter. exact Hall.
Qed.

Lemma getJobs_job_le lc rawJobs :
  Collation lc -> countries_separated lc rawJobs ->
  StronglySorted (job_le lc) (getJobs lc rawJobs).
Proof.
  intros Hlc Hdata. unfold getJobs.
  set (mapped := List.map normalize rawJobs).
  assert (Hsep : forall x y, In x mapped -> In y mapped ->
                             separates lc (country x) (country y)).
  { intros x y Hx Hy. apply in_map_iff in Hx, Hy.
    destruct Hx as (a & <- & Ha). destruct Hy as (b & <- & Hb).
    apply (Hdata a b Ha Hb). }
  pose proof (Array_sort_perm (compareJobs lc) mapped) as Hperm.
  apply StronglySorted_impl
    with (R := fun x y => (compareJobs lc x y <= 0)%Z).
  - intros x y Hx Hy. apply compareJobs_job_le.
    apply Hsep; apply (Permutation_in _ Hperm); assumption.
  - apply Array_sort_sorted with (Q := fun j => In j mapped).
    + apply compareJobs_anti. exact Hlc.
    + intros x y z Hx Hy _. apply compareJobs_trans; [exact Hlc|].
      apply Hsep; assumption.
    + apply Forall_forall. auto.
Qed.

(** What the explorer shows is sorted as its caption says ("Sorted by visa
    visibility, country, and company"): for a consistent [localeCompare]
    that tells apart the different countries of the records, the
    visible list and its two groups are in the three-key order, whatever
    the filters. *)
Theorem visible_jobs_sorted
        (localeCompare : jsstring -> jsstring -> Z)
        (toLowerCase : jsstring -> jsstring)
        (rawJobs : list Raw.RawJob)
        (country' jobType' : jsstring) (visaStatus' : VisaFilter)
        (searchTerm : jsstring) :
  Collation localeCompare ->
  countries_separated localeCompare rawJobs ->
  let visible := filteredJobs toLowerCase (getJobs localeCompare rawJobs)
                              country' jobType' visaStatus' searchTerm in
  StronglySorted (job_le localeCompare) visible /\
  StronglySorted (job_le localeCompare) (priorityJobs visible) /\
  StronglySorted (job_le localeCompare) (otherJobs visible).
Proof.
  intros Hlc Hdata visible.
  assert (H : StronglySorted (job_le localeCompare) visible).
  { apply StronglySorted_filter. apply getJobs_job_le; assumption. }
  split; [exact H|]. split; apply StronglySorted_filter; exact H.
Qed.

Lemma visible_jobs_sorted_witness :
  let visible := filteredJobs ascii_toLowerCase
                   (getJobs default_compare sample_raw_jobs)
                   (lit "UK") (lit "All") AllStatuses (lit "beta") in
  StronglySorted (job_le default_compare) visible /\
  StronglySorted (job_le default_compare) (priorityJobs visible) /\
  StronglySorted (job_le default_compare) (otherJobs visible).
Proof.
  apply (visible_jobs_sorted default_compare ascii_toLowerCase
           sample_raw_jobs (lit "UK") (lit "All") AllStatuses (lit "beta")
           default_compare_collation).
  intros a b _ _ H. apply default_compare_zero. exact H.
Defined.

(* ================================================================= *)
(** * Further properties of the statistics *)

Lemma sorted_set_spec values :
  let out := Array_sort default_compare (Set_from values) in
  NoDup out /\
  StronglySorted (fun a b => str_ltb a b = true) out /\
  forall c, In c out <-> In c values.
Proof.
  intros out.
  pose proof (Array_sort_perm default_compare (Set_from values)) as Hperm.
  assert (Hnd : NoDup out).
  { apply (Permutation_NoDup (Permutation_sym Hperm)). apply Set_from_NoDup. }
  split; [exact Hnd|]. split.
  - apply StronglySorted_impl
      with (R := fun x y => (default_compare x y <= 0)%Z /\ x <> y).
    + intros x y _ _ [Hle Hne]. apply default_compare_le in Hle.
      destruct (str_ltb x y) eqn:E; [reflexivity|].
      exfalso. apply Hne. apply str_ltb_total; assumption.
    + apply StronglySorted_NoDup; [|exact Hnd].
      apply Array_sort_sorted with (Q := fun _ => True).
      * intros x y Hxy. apply default_compare_anti in Hxy. lia.
      * intros x y z _ _ _. apply default_compare_trans.
      * apply Forall_forall. auto.
  - intros c. rewrite <- (Set_from_In values c).
    split; apply Permutation_in;
      [exact Hperm|apply Permutation_sym; exact Hperm].
Qed.

(** Two strictly ascending lists with the same elements are equal. *)
Lemma strictly_sorted_unique l1 l2 :
  StronglySorted (fun a b => str_ltb a b = true) l1 ->
  StronglySorted (fun a b => str_ltb a b = true) l2 ->
  (forall c, In c l1 <-> In c l2) -> l1 = l2.
Proof.
  intros H1. revert l2. induction H1 as [|x l1 Hs1 IH Hall1]; intros l2 H2 Hin.
  - destruct l2 as [|y l2]; [reflexivity|].
    destruct (proj2 (Hin y) (or_introl eq_refl)).
  - destruct H2 as [|y l2 Hs2 Hall2].
    + destruct (proj1 (Hin x) (or_introl eq_refl)).
    + rewrite Forall_forall in Hall1, Hall2.
      assert (Hxy : x = y).
      { destruct (proj1 (Hin x) (or_introl eq_refl)) as [E|Hx2]; [auto|].
        destruct (proj2 (Hin y) (or_introl eq_refl)) as [E|Hy1]; [auto|].
        pose proof (Hall2 x Hx2) as Hyx. pose proof (Hall1 y Hy1) as Hxy.
        rewrite (str_ltb_asym _ _ Hyx) in Hxy. discriminate Hxy. }
      subst y. f_equal. apply IH; [exact Hs2|].
      intros c. split; intros Hc.
      * destruct (proj1 (Hin c) (or_intror Hc)) as [E|Hc2]; [|exact Hc2].
        subst c. pose proof (Hall1 x Hc) as Hxx.
        rewrite str_ltb_irrefl in Hxx. discriminate Hxx.
      * destruct (proj2 (Hin c) (or_intror Hc)) as [E|Hc1]; [|exact Hc1].
        subst c. pose proof (Hall2 x Hc) as Hxx.
        rewrite str_ltb_irrefl in Hxx. discriminate Hxx.
Qed.

Lemma sorted_set_members values1 values2 :
  (forall c, In c values1 <-> In c values2) ->
  Array_sort default_compare (Set_from values1)
  = Array_sort default_compare (Set_from values2).
Proof.
  intros H.
  destruct (sorted_set_spec values1) as (_ & Hs1 & Hi1).
  destruct (sorted_set_spec values2) as (_ & Hs2 & Hi2).
  apply strictly_sorted_unique; [exact Hs1|exact Hs2|].
  intros c. rewrite Hi1, Hi2. apply H.
Qed.

Lemma count_status_perm v l l' :
  Permutation l l' -> count_status v l = count_status v l'.
Proof.
  induction 1 as [|x l l' _ IH|x y l|l l' l'' _ IH1 _ IH2]; simpl.
  - reflexivity.
  - rewrite IH. reflexivity.
  - destruct (visaStatus x), (visaStatus y), v; reflexivity.
  - congruence.
Qed.

(** The statistics do not depend on the order of the jobs; in particular
    the statistics that [Home] computes from [getJobs] are those of the
    records in their original order, whatever [localeCompare] is. *)
Theorem getJobStats_order_independent :
  (forall jobs jobs', Permutation jobs jobs' ->
                      getJobStats jobs = getJobStats jobs') /\
  (forall localeCompare rawJobs,
      getJobStats (getJobs localeCompare rawJobs)
      = getJobStats (List.map normalize rawJobs)).
Proof.
  assert (H : forall jobs jobs', Permutation jobs jobs' ->
                                 getJobStats jobs = getJobStats jobs').
  { intros l l' Hp. unfold getJobStats.
    rewrite <- !(count_status_filter Mentioned).
    rewrite (count_status_perm Mentioned l l' Hp).
    rewrite (Permutation_length Hp).
    rewrite (sorted_set_members (List.map country l) (List.map country l')).
    - rewrite (sorted_set_members (List.map jobType l) (List.map jobType l')).
      + reflexivity.
      + intros c. split; apply Permutation_in;
          [|apply Permutation_sym]; apply Permutation_map; exact Hp.
    - intros c. split; apply Permutation_in;
        [|apply Permutation_sym]; apply Permutation_map; exact Hp. }
  split; [exact H|]. intros lc raw. apply H. apply Array_sort_perm.
Qed.

Lemma length_sorted_set values :
  length (Array_sort default_compare (Set_from values)) <= length values /\
  (Array_sort default_compare (Set_from values) = [] <-> values = []).
Proof.
  destruct (sorted_set_spec values) as (Hnd & _ & Hin). split.
  - apply NoDup_incl_length; [exact Hnd|]. intros c Hc. apply Hin. exact Hc.
  - split.
    + intros E. destruct values as [|x values]; [reflexivity|].
      pose proof (proj2 (Hin x) (or_introl eq_refl)) as Hx.
      rewrite E in Hx. destruct Hx.
    + intros ->. reflexivity.
Qed.

(** There are at most as many countries and job types as jobs, and the
    two lists are empty exactly when there is no job. *)
Theorem getJobStats_dimension_bounds (jobs : list Job) :
  let stats := getJobStats jobs in
  (Z.of_nat (length (countries stats)) <= total stats)%Z /\
  (Z.of_nat (length (jobTypes stats)) <= total stats)%Z /\
  (countries stats = [] <-> jobs = []) /\
  (jobTypes stats = [] <-> jobs = []).
Proof.
  intros stats. unfold stats, getJobStats. cbn [countries jobTypes total].
  destruct (length_sorted_set (List.map country jobs)) as [Hc1 Hc2].
  destruct (length_sorted_set (List.map jobType jobs)) as [Ht1 Ht2].
  rewrite length_map in Hc1, Ht1.
  assert (Hm : forall (f : Job -> jsstring), List.map f jobs = [] <-> jobs = []).
  { intros f. destruct jobs; simpl; split; congruence. }
  rewrite Hc2, Ht2, !Hm. repeat split; auto; lia.
Qed.

(* ================================================================= *)
(** * Further properties of the filters *)

Lemma length_otherJobs l :
  length (otherJobs l) = count_status NotMentioned l.
Proof.
  unfold otherJobs. induction l as [|j l IH]; [reflexivity|]. simpl.
  destruct (visaStatus j); simpl; rewrite IH; reflexivity.
Qed.

Section ExplorerFacts.
Variable toLowerCase : jsstring -> jsstring.

Lemma keep_blank_keyword c t v k job :
  trim k = [] ->
  keep toLowerCase c t v k job = keep toLowerCase c t v [] job.
Proof.
  intros H. unfold keep. rewrite H. reflexivity.
Qed.

Lemma keep_all k job :
  trim k = [] ->
  keep toLowerCase (lit "All") (lit "All") AllStatuses k job = true.
Proof. intros H. unfold keep. rewrite H. reflexivity. Qed.

(** [keep] is the conjunction of the four criteria taken one at a time. *)
Lemma keep_split c t v k job :
  keep toLowerCase c t v k job =
  keep toLowerCase c (lit "All") AllStatuses [] job &&
  keep toLowerCase (lit "All") t AllStatuses [] job &&
  keep toLowerCase (lit "All") (lit "All") v [] job &&
  keep toLowerCase (lit "All") (lit "All") AllStatuses k job.
Proof.
  unfold keep.
  change (str_eqb (lit "All") (lit "All")) with true.
  change (trim []) with (@nil char). cbn [negb andb is_all truthy].
  destruct (negb (str_eqb c (lit "All")) && negb (str_eqb (country job) c));
    [reflexivity|].
  destruct (negb (str_eqb t (lit "All")) && negb (str_eqb (jobType job) t));
    [reflexivity|].
  destruct (negb (is_all v) && negb (visa_filter_eqb (visaStatus job) v));
    reflexivity.
Qed.

Lemma keep_trim c t v k job :
  keep toLowerCase c t v (trim k) job = keep toLowerCase c t v k job.
Proof.
  unfold keep. rewrite (trim_id (trim k)) by apply trim_trimmed.
  reflexivity.
Qed.
End ExplorerFacts.

(** With the initial state of the explorer ("All", "All", "All" and an empty
    keyword) and with any keyword made of whitespace only, every job is
    visible, and the two groups have the sizes that the statistics
    announce. *)
Theorem filteredJobs_default
        (toLowerCase : jsstring -> jsstring)
        (jobs : list Job) (searchTerm : jsstring) :
  forallb is_ws searchTerm = true ->
  let visible := filteredJobs toLowerCase jobs (lit "All") (lit "All")
                              AllStatuses searchTerm in
  visible = jobs /\
  Z.of_nat (length (priorityJobs visible)) = visaMentioned (getJobStats jobs) /\
  Z.of_nat (length (otherJobs visible)) = visaNotMentioned (getJobStats jobs).
Proof.
  intros Hws visible.
  assert (Hv : visible = jobs).
  { apply filter_true. intros j _. apply keep_all. apply trim_all_ws.
    exact Hws. }
  rewrite Hv. split; [reflexivity|]. split; [reflexivity|].
  rewrite length_otherJobs. simpl.
  rewrite <- (count_status_filter Mentioned jobs).
  pose proof (count_status_total jobs). lia.
Qed.

Lemma filteredJobs_default_witness :
  let jobs := getJobs default_compare sample_raw_jobs in
  let visible := filteredJobs ascii_toLowerCase jobs (lit "All") (lit "All")
                              AllStatuses (lit "   ") in
  visible = jobs /\
  Z.of_nat (length (priorityJobs visible)) = visaMentioned (getJobStats jobs) /\
  Z.of_nat (length (otherJobs visible)) = visaNotMentioned (getJobStats jobs).
Proof.
  apply (filteredJobs_default ascii_toLowerCase
           (getJobs default_compare sample_raw_jobs) (lit "   ")).
  vm_compute. reflexivity.
Defined.

Lemma filter_filter {A} (f g : A -> bool) l :
  filter f (filter g l) = filter (fun x => g x && f x) l.
Proof.
  induction l as [|x l IH]; [reflexivity|]. simpl.
  destruct (g x); simpl; [destruct (f x)|]; rewrite IH; reflexivity.
Qed.

(** The four criteria can be applied one after the other: filtering by
    country, then by job type, then by visa status, then by keyword gives
    the list of the combined filter; and two filter passes give the same
    list in either order. *)
Theorem filteredJobs_compose
        (toLowerCase : jsstring -> jsstring) (jobs : list Job) :
  (forall c t v k,
      filteredJobs toLowerCase
        (filteredJobs toLowerCase
          (filteredJobs toLowerCase
            (filteredJobs toLowerCase jobs c (lit "All") AllStatuses [])
            (lit "All") t AllStatuses [])
          (lit "All") (lit "All") v [])
        (lit "All") (lit "All") AllStatuses k
      = filteredJobs toLowerCase jobs c t v k) /\
  (forall c t v k c' t' v' k',
      filteredJobs toLowerCase (filteredJobs toLowerCase jobs c t v k)
                   c' t' v' k'
      = filteredJobs toLowerCase (filteredJobs toLowerCase jobs c' t' v' k')
                     c t v k).
Proof.
  split.
  - intros c t v k. unfold filteredJobs. rewrite !filter_filter.
    apply filter_ext. intros j. rewrite (keep_split toLowerCase c t v k j).
    rewrite !andb_assoc. reflexivity.
  - intros c t v k c' t' v' k'. unfold filteredJobs. rewrite !filter_filter.
    apply filter_ext. intros j. apply andb_comm.
Qed.

(** A country offered by the country menu (an element of [countries]) and
    a job type offered by the role menu always select at least one job, and
    unless the value is the text "All" exactly the jobs with that value. *)
Theorem offered_option_selects
        (toLowerCase : jsstring -> jsstring) (jobs : list Job) :
  (forall c, In c (countries (getJobStats jobs)) ->
     let visible := filteredJobs toLowerCase jobs c (lit "All")
                                 AllStatuses [] in
     visible <> [] /\
     (c <> lit "All" ->
      forall j, In j visible <-> In j jobs /\ country j = c)) /\
  (forall t, In t (jobTypes (getJobStats jobs)) ->
     let visible := filteredJobs toLowerCase jobs (lit "All") t
                                 AllStatuses [] in
     visible <> [] /\
     (t <> lit "All" ->
      forall j, In j visible <-> In j jobs /\ jobType j = t)).
Proof.
  split.
  - intros c Hc visible.
    destruct (sorted_set_spec (List.map country jobs)) as (_ & _ & Hin).
    apply Hin in Hc. apply in_map_iff in Hc. destruct Hc as (j0 & Hj0 & Hin0).
    assert (Hkeep : forall j, keep toLowerCase c (lit "All") AllStatuses [] j
                              = str_eqb c (lit "All") || str_eqb (country j) c).
    { intros j. unfold keep.
      change (str_eqb (lit "All") (lit "All")) with true.
      change (trim []) with (@nil char). cbn [negb andb is_all truthy].
      destruct (str_eqb c (lit "All")), (str_eqb (country j) c); reflexivity. }
    split.
    + intros E. assert (Hi : In j0 visible).
      { apply filter_In. split; [exact Hin0|]. rewrite Hkeep, Hj0.
        rewrite str_eqb_refl. apply orb_true_r. }
      rewrite E in Hi. destruct Hi.
    + intros Hne j. unfold visible, filteredJobs.
      rewrite filter_In, Hkeep.
      rewrite (proj2 (str_eqb_neq c (lit "All")) Hne). simpl.
      rewrite str_eqb_eq. reflexivity.
  - intros t Ht visible.
    destruct (sorted_set_spec (List.map jobType jobs)) as (_ & _ & Hin).
    apply Hin in Ht. apply in_map_iff in Ht. destruct Ht as (j0 & Hj0 & Hin0).
    assert (Hkeep : forall j, keep toLowerCase (lit "All") t AllStatuses [] j
                              = str_eqb t (lit "All") || str_eqb (jobType j) t).
    { intros j. unfold keep.
      change (str_eqb (lit "All") (lit "All")) with true.
      change (trim []) with (@nil char). cbn [negb andb is_all truthy].
      destruct (str_eqb t (lit "All")), (str_eqb (jobType j) t); reflexivity. }
    split.
    + intros E. assert (Hi : In j0 visible).
      { apply filter_In. split; [exact Hin0|]. rewrite Hkeep, Hj0.
        rewrite str_eqb_refl. apply orb_true_r. }
      rewrite E in Hi. destruct Hi.
    + intros Hne j. unfold visible, filteredJobs.
      rewrite filter_In, Hkeep.
      rewrite (proj2 (str_eqb_neq t (lit "All")) Hne). simpl.
      rewrite str_eqb_eq. reflexivity.
Qed.

Lemma dropWhile_app {A} (p : A -> bool) k b :
  dropWhile p (k ++ b) =
  match dropWhile p k with
  | [] => dropWhile p b
  | y => y ++ b
  end.
Proof.
  induction k as [|x k IH]; simpl.
  - reflexivity.
  - destruct (p x); [exact IH|reflexivity].
Qed.

Lemma dropWhile_all {A} (p : A -> bool) a :
  forallb p a = true -> dropWhile p a = [].
Proof.
  induction a as [|x a IH]; [reflexivity|]. simpl. intros H.
  apply andb_true_iff in H. destruct H as [Hx Ha]. rewrite Hx. auto.
Qed.

Lemma forallb_rev {A} (p : A -> bool) l :
  forallb p l = true -> forallb p (rev l) = true.
Proof.
  rewrite !forallb_forall. intros H x Hx. apply H. apply in_rev. exact Hx.
Qed.

(** Whitespace around a text is ignored by [trim]. *)
Lemma trim_padding a k b :
  forallb is_ws a = true -> forallb is_ws b = true ->
  trim (a ++ k ++ b) = trim k.
Proof.
  intros Ha Hb. unfold trim, trimStart.
  rewrite (dropWhile_app is_ws a), (dropWhile_all _ _ Ha).
  rewrite (dropWhile_app is_ws k).
  destruct (dropWhile is_ws k) as [|y t] eqn:E.
  - rewrite (dropWhile_all _ _ Hb). reflexivity.
  - unfold trimEnd. rewrite rev_app_distr, dropWhile_app.
    rewrite (dropWhile_all _ _ (forallb_rev _ _ Hb)). reflexivity.
Qed.

(** Whitespace typed before or after the keyword does not change what is
    shown. *)
Theorem keyword_padding_ignored
        (toLowerCase : jsstring -> jsstring) (jobs : list Job)
        (country' jobType' : jsstring) (visaStatus' : VisaFilter)
        (before keyword after : jsstring) :
  forallb is_ws before = true -> forallb is_ws after = true ->
  filteredJobs toLowerCase jobs country' jobType' visaStatus'
               (before ++ keyword ++ after)
  = filteredJobs toLowerCase jobs country' jobType' visaStatus' keyword.
Proof.
  intros Ha Hb. unfold filteredJobs. apply filter_ext. intros j.
  rewrite <- (keep_trim toLowerCase _ _ _ (before ++ keyword ++ after)).
  rewrite (trim_padding _ _ _ Ha Hb). apply keep_trim.
Qed.

Lemma keyword_padding_ignored_witness :
  filteredJobs ascii_toLowerCase (getJobs default_compare sample_raw_jobs)
               (lit "UK") (lit "All") AllStatuses
               ([9%N; c_space] ++ lit "beta" ++ [160%N])
  = filteredJobs ascii_toLowerCase (getJobs default_compare sample_raw_jobs)
                 (lit "UK") (lit "All") AllStatuses (lit "beta").
Proof.
  apply (keyword_padding_ignored ascii_toLowerCase
           (getJobs default_compare sample_raw_jobs)
           (lit "UK") (lit "All") AllStatuses
           [9%N; c_space] (lit "beta") [160%N]);
    vm_compute; reflexivity.
Defined.

Lemma is_ws_spec c :
  is_ws c = true <->
  (9 <= c <= 13 \/ c = 32 \/ c = 160 \/ c = 5760 \/ 8192 <= c <= 8202 \/
   c = 8232 \/ c = 8233 \/ c = 8239 \/ c = 8287 \/ c = 12288 \/ c = 65279)%N.
Proof.
  unfold is_ws.
  rewrite !orb_true_iff, !andb_true_iff, !N.leb_le, !N.eqb_eq. tauto.
Qed.

Lemma is_ws_letter c : (65 <= c <= 122)%N -> is_ws c = false.
Proof.
  intros H. destruct (is_ws c) eqn:E; [|reflexivity].
  apply is_ws_spec in E. lia.
Qed.

Lemma ascii_lower_spec x :
  ((65 <= x <= 90)%N /\ ascii_lower x = (x + 32)%N) \/
  (~ (65 <= x <= 90)%N /\ ascii_lower x = x).
Proof.
  unfold ascii_lower.
  destruct (N.leb_spec 65 x), (N.leb_spec x 90); simpl;
    [left|right|right|right]; split; (lia || reflexivity).
Qed.

Lemma ascii_upper_spec x :
  ((97 <= x <= 122)%N /\ ascii_upper x = (x - 32)%N) \/
  (~ (97 <= x <= 122)%N /\ ascii_upper x = x).
Proof.
  unfold ascii_upper.
  destruct (N.leb_spec 97 x), (N.leb_spec x 122); simpl;
    [left|right|right|right]; split; (lia || reflexivity).
Qed.

Lemma case_change_upper : case_change ascii_upper.
Proof.
  intros x. destruct (ascii_upper_spec x) as [[Hx ->]|[Hx ->]].
  - split; [rewrite !is_ws_letter by lia; reflexivity|]. intros _.
    split; [apply N.ltb_lt; lia|].
    destruct (ascii_lower_spec (x - 32)) as [[_ ->]|[Hy _]]; [|lia].
    destruct (ascii_lower_spec x) as [[Hz _]|[_ ->]]; lia.
  - split; [reflexivity|]. intros Hasc. split; [exact Hasc|reflexivity].
Qed.

Lemma case_change_lower : case_change ascii_lower.
Proof.
  intros x. destruct (ascii_lower_spec x) as [[Hx ->]|[Hx ->]].
  - split; [rewrite !is_ws_letter by lia; reflexivity|]. intros _.
    split; [apply N.ltb_lt; lia|].
    destruct (ascii_lower_spec (x + 32)) as [[Hy _]|[_ ->]];
      [lia|reflexivity].
  - split; [reflexivity|]. intros Hasc. split; [exact Hasc|].
    destruct (ascii_lower_spec x) as [[Hy _]|[_ ->]];
      [contradiction|reflexivity].
Qed.

Section CaseChange.
Variable f : char -> char.
Hypothesis Hf : case_change f.

Lemma dropWhile_map s :
  dropWhile is_ws (List.map f s) = List.map f (dropWhile is_ws s).
Proof.
  induction s as [|x s IH]; [reflexivity|]. simpl.
  rewrite (proj1 (Hf x)). destruct (is_ws x); [exact IH|reflexivity].
Qed.

Lemma trim_map s : trim (List.map f s) = List.map f (trim s).
Proof.
  unfold trim, trimEnd, trimStart.
  rewrite dropWhile_map, <- map_rev, dropWhile_map, map_rev. reflexivity.
Qed.

Lemma lower_map s :
  forallb is_ascii s = true ->
  forallb is_ascii (List.map f s) = true /\
  List.map ascii_lower (List.map f s) = List.map ascii_lower s.
Proof.
  induction s as [|x s IH]; [auto|]. simpl. intros H.
  apply andb_true_iff in H. destruct H as [Hx Hs].
  destruct (proj2 (Hf x) Hx) as [H1 H2]. destruct (IH Hs) as [H3 H4].
  rewrite H1, H2, H3, H4. auto.
Qed.
End CaseChange.

Lemma forallb_trim (p : char -> bool) s :
  forallb p s = true -> forallb p (trim s) = true.
Proof.
  intros H. destruct (trim_infix s) as (a & b & Hab).
  rewrite Hab, !forallb_app in H.
  apply andb_true_iff in H. destruct H as [_ H].
  apply andb_true_iff in H. tauto.
Qed.

(** The ASCII case of the keyword never matters: with the ASCII behaviour
    of [toLowerCase], an ASCII keyword, the same keyword in upper case and
    the same keyword in lower case show the same jobs. *)
Theorem keyword_ascii_case_ignored
        (toLowerCase : jsstring -> jsstring) (jobs : list Job)
        (country' jobType' : jsstring) (visaStatus' : VisaFilter)
        (keyword : jsstring) :
  (forall s, forallb is_ascii s = true ->
             toLowerCase s = List.map ascii_lower s) ->
  forallb is_ascii keyword = true ->
  filteredJobs toLowerCase jobs country' jobType' visaStatus'
               (List.map ascii_upper keyword)
  = filteredJobs toLowerCase jobs country' jobType' visaStatus' keyword /\
  filteredJobs toLowerCase jobs country' jobType' visaStatus'
               (List.map ascii_lower keyword)
  = filteredJobs toLowerCase jobs country' jobType' visaStatus' keyword.
Proof.
  intros Hlow Hk.
  assert (H : forall f, case_change f ->
     filteredJobs toLowerCase jobs country' jobType' visaStatus'
                  (List.map f keyword)
     = filteredJobs toLowerCase jobs country' jobType' visaStatus' keyword).
  { intros f Hf. unfold filteredJobs. apply filter_ext. intros j.
    unfold keep. rewrite (trim_map f Hf).
    pose proof (forallb_trim is_ascii keyword Hk) as Ht.
    destruct (lower_map f Hf (trim keyword) Ht) as [Ha Hl].
    rewrite (Hlow _ Ha), Hl, <- (Hlow _ Ht).
    destruct (trim keyword); reflexivity. }
  split; apply H; [apply case_change_upper|apply case_change_lower].
Qed.

Lemma keyword_ascii_case_ignored_witness :
  let jobs := getJobs default_compare sample_raw_jobs in
  filteredJobs ascii_toLowerCase jobs (lit "All") (lit "All") AllStatuses
               (List.map ascii_upper (lit "Video"))
  = filteredJobs ascii_toLowerCase jobs (lit "All") (lit "All") AllStatuses
                 (lit "Video") /\
  filteredJobs ascii_toLowerCase jobs (lit "All") (lit "All") AllStatuses
               (List.map ascii_lower (lit "Video"))
  = filteredJobs ascii_toLowerCase jobs (lit "All") (lit "All") AllStatuses
                 (lit "Video").
Proof.
  apply (keyword_ascii_case_ignored ascii_toLowerCase
           (getJobs default_compare sample_raw_jobs)
           (lit "All") (lit "All") AllStatuses (lit "Video")).
  - intros s _. reflexivity.
  - vm_compute. reflexivity.
Defined.
